(** * make_thumbs.py: batch generation of web thumbnails

  A shallow embedding of [make_thumbs.py].  The script's own functions
  ([is_image], [convert_mode], [save_image], [resize_fit],
  [process_image], [main]) are translated line by line into a small
  state-and-exception monad.  The state is the part of the world the
  script acts on: the file system (paths, contents, modification times)
  and the heap of Python image objects, so that in-place mutation
  ([Image.thumbnail]) and copying ([Image.copy]) are told apart.

  The operations of [pathlib] and Pillow that the script calls are
  modelled next to it.  What the imaging library does to pixels (decoding,
  resampling, colour conversion, encoding) is kept abstract in the
  [Pillow] interface; everything proved below holds for every
  implementation of that interface. *)

From Stdlib Require Import ZArith QArith Qround Qabs String Ascii List Lia.
From stdpp Require Import base gmap strings list.

Local Open Scope string_scope.
Local Open Scope Z_scope.

(** ** Python strings *)

Module PyStr.

(** [str.lower] on the ASCII range; other bytes are left as they are. *)
Definition lower_char (c : ascii) : ascii :=
  let n := nat_of_ascii c in
  if ((65 <=? n) && (n <=? 90))%nat then ascii_of_nat (n + 32) else c.

Fixpoint lower (s : string) : string :=
  match s with
  | EmptyString => EmptyString
  | String c s' => String (lower_char c) (lower s')
  end.

(** [s.rfind('.')], with [None] for Python's [-1]. *)
Fixpoint rfind_dot (s : string) : option nat :=
  match s with
  | EmptyString => None
  | String c s' =>
      match rfind_dot s' with
      | Some i => Some (S i)
      | None => if Ascii.eqb c "." then Some 0%nat else None
      end
  end.

(** [s[n:]] and [s[:n]] for [0 <= n]. *)
Fixpoint drop (n : nat) (s : string) : string :=
  match n, s with
  | O, _ => s
  | S n', String _ s' => drop n' s'
  | S _, EmptyString => EmptyString
  end.

Fixpoint take (n : nat) (s : string) : string :=
  match n, s with
  | O, _ => EmptyString
  | S n', String c s' => String c (take n' s')
  | S _, EmptyString => EmptyString
  end.

Fixpoint all_dots (s : string) : bool :=
  match s with
  | EmptyString => true
  | String c s' => Ascii.eqb c "." && all_dots s'
  end.

(** [os.path.splitext(name)[1]]: the extension starts at the last dot,
  unless only dots come before it. *)
Definition splitext_ext (nm : string) : string :=
  match rfind_dot nm with
  | Some i => if all_dots (take i nm) then EmptyString else drop i nm
  | None => EmptyString
  end.

(** [s in (a, b, ...)] on a tuple of strings. *)
Definition mem (s : string) (l : list string) : bool :=
  existsb (String.eqb s) l.

End PyStr.

(** ** pathlib

  A pure path is its sequence of components; [name] is the last one.
  [suffix] and [stem] follow [pathlib.PurePath] (Python up to 3.12):
  the suffix starts at the last dot of the name unless that dot is the
  first or the last character. *)

Module PurePath.

Abbreviation Path := (list string).

Definition name (p : Path) : string := List.last p "".

Definition parent (p : Path) : Path := List.removelast p.

(** [p / child] for a relative single-component [child]. *)
Definition joinpath (p : Path) (child : string) : Path := (p ++ [child])%list.

Definition split_at_dot (nm : string) : option nat :=
  match PyStr.rfind_dot nm with
  | Some i => if ((0 <? i) && (i <? String.length nm - 1))%nat then Some i else None
  | None => None
  end.

Definition suffix (p : Path) : string :=
  match split_at_dot (name p) with
  | Some i => PyStr.drop i (name p)
  | None => ""
  end.

Definition stem (p : Path) : string :=
  match split_at_dot (name p) with
  | Some i => PyStr.take i (name p)
  | None => name p
  end.

(** [p.with_suffix(suffix)]; it raises [ValueError] on an invalid suffix or
  on an empty name, which is [None] here. *)
Definition valid_suffix (sfx : string) : bool :=
  match sfx with
  | EmptyString => true
  | String c rest =>
      Ascii.eqb c "." && negb (String.eqb rest "")
      && negb (existsb (Ascii.eqb "/") (list_ascii_of_string sfx))
  end.

Definition with_suffix (p : Path) (sfx : string) : option Path :=
  if negb (valid_suffix sfx) then None
  else if String.eqb (name p) "" then None
  else
    let old_suffix := suffix p in
    let nm :=
      if String.eqb old_suffix "" then name p ++ sfx
      else PyStr.take (String.length (name p) - String.length old_suffix) (name p) ++ sfx in
    Some (joinpath (parent p) nm).

End PurePath.

Import PurePath.
Infix "</>" := joinpath (at level 40, left associativity).

(** ** Exceptions, images and the world *)

(** A raised Python exception: its class and [str(e)].  Every class raised
  by the operations modelled here derives from [Exception]. *)
Record PyExc := mkExc { exc_class : string; exc_str : string }.

Definition FileNotFoundError (p : Path) : PyExc :=
  mkExc "FileNotFoundError" ("No such file or directory: " ++ name p).
Definition ZeroDivisionError : PyExc := mkExc "ZeroDivisionError" "division by zero".
Definition ValueError (msg : string) : PyExc := mkExc "ValueError" msg.
Definition ReferenceError : PyExc := mkExc "ReferenceError" "no such object".

(** Output formats of Pillow's extension registry that the script can reach,
  and some neighbours. *)
Inductive Format := JPEG | PNG | WEBP | TIFF | GIF | BMP.

Definition registered_extension (ext : string) : option Format :=
  if PyStr.mem ext [".jpg"; ".jpeg"; ".jpe"; ".jfif"] then Some JPEG
  else if PyStr.mem ext [".png"; ".apng"] then Some PNG
  else if String.eqb ext ".webp" then Some WEBP
  else if PyStr.mem ext [".tif"; ".tiff"] then Some TIFF
  else if String.eqb ext ".gif" then Some GIF
  else if String.eqb ext ".bmp" then Some BMP
  else None.

(** Keyword arguments of [Image.save]. *)
Inductive KwVal := KwInt (n : Z) | KwBool (b : bool).
Abbreviation Kwargs := (list (string * KwVal)).

(** [d.update(other)] on a dict kept in insertion order. *)
Definition kw_set (d : Kwargs) (kv : string * KwVal) : Kwargs :=
  if existsb (fun e => String.eqb (fst e) (fst kv)) d
  then map (fun e => if String.eqb (fst e) (fst kv) then kv else e) d
  else (d ++ [kv])%list.

Definition kw_update (d other : Kwargs) : Kwargs := fold_left kw_set other d.

Section World.

(** Pixel storage (with the metadata that travels with it) is abstract. *)
Context {Raster : Type}.

(** A [PIL.Image.Image] object: its mode, its size, its pixels. *)
Record Image := mkImage { mode : string; width : Z; height : Z; im : Raster }.

(** What a file holds: an image as Pillow encoded it, or foreign bytes. *)
Inductive Content :=
| Encoded (fmt : Format) (opts : Kwargs) (img : Image)
| Bytes (b : list Byte.byte).

Record File := mkFile { content : Content; st_mtime : Z }.

(** The world: regular files by path, the number of writes made so far and
  the heap of image objects (a reference is an index into it). *)
Record World := mkWorld {
  files : gmap Path File;
  ticks : nat;
  heap : list Image }.

(** The imaging library and the operating system, as far as the script
  depends on them. *)
Class Pillow := {
  (** [Image.open]: identify and decode a file's content. *)
  decode : Content -> PyExc + Image;
  (** [ImageOps.exif_transpose]: the upright image. *)
  transpose : Image -> PyExc + Image;
  (** Lanczos resampling of a raster from one size to another. *)
  resample : Raster -> Z * Z -> Z * Z -> Raster;
  (** [Image.convert]: the raster in another mode; the conversions the
    script asks for are taken to be supported. *)
  convert_raster : string -> string -> Raster -> Raster;
  (** The encoder's refusal of an image, if any. *)
  encode_error : Format -> Kwargs -> Image -> option PyExc;
  (** What a failed encoder leaves in a file that existed before. *)
  partial_output : Format -> Kwargs -> Image -> list Byte.byte;
  (** The modification time the file system gives to the [k]-th write. *)
  clock : nat -> Z }.

Context {lib : Pillow}.

(** *** The monad: state passing with exceptions *)

Definition M (A : Type) : Type := World -> (PyExc + A) * World.

Definition ret {A} (a : A) : M A := fun w => (inr a, w).

Definition raise {A} (e : PyExc) : M A := fun w => (inl e, w).

Definition bind {A B} (m : M A) (k : A -> M B) : M B :=
  fun w =>
    match m w with
    | (inr a, w') => k a w'
    | (inl e, w') => (inl e, w')
    end.

(** [try: body  except Exception as e: handler(e)] *)
Definition try_except {A} (body : M A) (handler : PyExc -> M A) : M A :=
  fun w =>
    match body w with
    | (inr a, w') => (inr a, w')
    | (inl e, w') => handler e w'
    end.

Definition lift {A} (r : PyExc + A) : M A := fun w => (r, w).

Declare Scope py_scope.
Delimit Scope py_scope with py.
Notation "x <~ c ;; k" := (bind c (fun x => k))
  (at level 100, c at next level, right associativity) : py_scope.
Notation "c ;;; k" := (bind c (fun _ => k))
  (at level 100, right associativity) : py_scope.
Local Open Scope py_scope.

(** [a and b] on effectful operands: [b] runs only if [a] is true. *)
Definition and_then (a b : M bool) : M bool :=
  x <~ a ;; if x then b else ret false.


(** *** Objects on the heap *)

Definition new_object (img : Image) : M nat :=
  fun w => (inr (length (heap w)), mkWorld (files w) (ticks w) (heap w ++ [img])%list).

Definition deref (r : nat) : M Image :=
  fun w =>
    match heap w !! r with
    | Some img => (inr img, w)
    | None => (inl ReferenceError, w)
    end.

Definition assign (r : nat) (img : Image) : M unit :=
  fun w => (inr tt, mkWorld (files w) (ticks w) (<[r := img]> (heap w))).

(** *** The file system *)

Definition read_file (p : Path) : M File :=
  fun w =>
    match files w !! p with
    | Some f => (inr f, w)
    | None => (inl (FileNotFoundError p), w)
    end.

(** [p.exists()]; only regular files are kept in the world, so this is
  [p.is_file()] as well. *)
Definition path_exists (p : Path) : M bool :=
  fun w => (inr (match files w !! p with Some _ => true | None => false end), w).

(** [p.stat().st_mtime] *)
Definition stat_mtime (p : Path) : M Z :=
  f <~ read_file p ;; ret (st_mtime f).

(** [d.iterdir()], in the order the map yields the paths.  Directories are
  implicit in the world, so a missing directory is not told apart from an
  empty one. *)
Definition iterdir (d : Path) : M (list Path) :=
  fun w =>
    (inr (List.filter (fun p => bool_decide (p <> [] /\ parent p = d))
            (map fst (map_to_list (files w)))), w).

(** *** Pillow *)

(** [Image.open(p)] *)
Definition Image_open (p : Path) : M nat :=
  f <~ read_file p ;;
  img <~ lift (decode (content f)) ;;
  new_object img.

(** [ImageOps.exif_transpose(image)]: a new image. *)
Definition exif_transpose (r : nat) : M nat :=
  img <~ deref r ;;
  img' <~ lift (transpose img) ;;
  new_object img'.

(** [image.copy()] *)
Definition Image_copy (r : nat) : M nat :=
  img <~ deref r ;; new_object img.

(** [image.convert(m)]: a new image in mode [m]. *)
Definition Image_convert (r : nat) (m : string) : M nat :=
  img <~ deref r ;;
  new_object (mkImage m (width img) (height img) (convert_raster (mode img) m (im img))).

(** [Image.thumbnail]'s size computation.  Pillow computes it in floating
  point; it is modelled here in exact rational arithmetic.

  [round_aspect(number, key)] is
  [max(min(math.floor(number), math.ceil(number), key=key), 1)];
  [min] keeps its first argument on a tie. *)
Definition round_aspect (number : Q) (key : Z -> Q) : Z :=
  let lo := Qfloor number in
  let hi := Qceiling number in
  Z.max (if Qle_bool (key lo) (key hi) then lo else hi) 1.

(** [preserve_aspect_ratio()] for an image of [w] by [h] pixels and a
  requested box of [x] by [y]; [None] means the image already fits. *)
Definition preserve_aspect_ratio (w h x y : Z) : PyExc + option (Z * Z) :=
  if (w <=? x) && (h <=? y) then inr None
  else if h =? 0 then inl ZeroDivisionError
  else
    let aspect := (inject_Z w / inject_Z h)%Q in
    if y =? 0 then inl ZeroDivisionError
    else if Qle_bool aspect (inject_Z x / inject_Z y)%Q then
      inr (Some (round_aspect (inject_Z y * aspect)%Q
                   (fun n => Qabs (aspect - inject_Z n / inject_Z y)%Q), y))
    else if w =? 0 then inl ZeroDivisionError
    else
      inr (Some (x, round_aspect (inject_Z x / aspect)%Q
                      (fun n => if n =? 0 then 0%Q
                                else Qabs (aspect - inject_Z x / inject_Z n)%Q))).

(** [image.resize(size, resample)]: a new image value of that size. *)
Definition resize (img : Image) (size : Z * Z) : PyExc + Image :=
  if (fst size <? 1) || (snd size <? 1)
  then inl (ValueError "height and width must be > 0")
  else inr (mkImage (mode img) (fst size) (snd size)
              (resample (im img) (width img, height img) size)).

(** [image.thumbnail(size, resample)]: shrinks the object in place. *)
Definition thumbnail (r : nat) (size : Z * Z) : M unit :=
  img <~ deref r ;;
  final <~ lift (preserve_aspect_ratio (width img) (height img) (fst size) (snd size)) ;;
  match final with
  | None => ret tt
  | Some final_size =>
      if bool_decide ((width img, height img) = final_size) then ret tt
      else img' <~ lift (resize img final_size) ;; assign r img'
  end.

(** [image.save(p, **kw)]: the format comes from the extension; the file
  gets the time of this write.  When the encoder fails, a file that was
  there before is left with what was written so far and a file created by
  this call is removed again.  Failures of the file system itself (a
  missing or unwritable directory) are not modelled. *)
Definition Image_save (r : nat) (p : Path) (kw : Kwargs) : M unit :=
  img <~ deref r ;;
  match registered_extension (PyStr.lower (PyStr.splitext_ext (name p))) with
  | None => raise (ValueError ("unknown file extension: " ++ PyStr.splitext_ext (name p)))
  | Some fmt =>
      fun w =>
        let t := clock (ticks w) in
        match encode_error fmt kw img with
        | None =>
            (inr tt, mkWorld (<[p := mkFile (Encoded fmt kw img) t]> (files w))
                       (S (ticks w)) (heap w))
        | Some e =>
            match files w !! p with
            | Some _ =>
                (inl e, mkWorld (<[p := mkFile (Bytes (partial_output fmt kw img)) t]> (files w))
                          (S (ticks w)) (heap w))
            | None => (inl e, w)
            end
        end
  end.

(** ** The script *)

Definition is_image (p : Path) : bool :=
  PyStr.mem (PyStr.lower (suffix p))
    [".jpg"; ".jpeg"; ".png"; ".webp"; ".heic"; ".heif"; ".tif"; ".tiff"].

Definition convert_mode (img : nat) : M nat :=
  i <~ deref img ;;
  if PyStr.mem (mode i) ["P"; "LA"; "RGBA"; "CMYK"; "P;16"; "I;16"] then
    Image_convert img "RGB"
  else if String.eqb (mode i) "L" then
    Image_convert img "RGB"
  else ret img.

Definition jpeg_kwargs : Kwargs :=
  [("quality", KwInt 82); ("optimize", KwBool true); ("progressive", KwBool true)].
Definition png_kwargs : Kwargs :=
  [("optimize", KwBool true); ("compress_level", KwInt 6)].
Definition webp_kwargs : Kwargs :=
  [("quality", KwInt 82); ("method", KwInt 6)].

Definition save_image (img : nat) (out_path : Path) : M Path :=
  let ext := PyStr.lower (suffix out_path) in
  let save_kwargs : Kwargs := [] in
  if PyStr.mem ext [".jpg"; ".jpeg"] then
    let save_kwargs := kw_update save_kwargs jpeg_kwargs in
    img <~ convert_mode img ;;
    Image_save img out_path save_kwargs ;;;
    ret out_path
  else if String.eqb ext ".png" then
    let save_kwargs := kw_update save_kwargs png_kwargs in
    Image_save img out_path save_kwargs ;;;
    ret out_path
  else if String.eqb ext ".webp" then
    let save_kwargs := kw_update save_kwargs webp_kwargs in
    Image_save img out_path save_kwargs ;;;
    ret out_path
  else
    match with_suffix out_path ".jpg" with
    | None => raise (ValueError "invalid name or suffix")
    | Some out_path =>
        let save_kwargs := kw_update save_kwargs jpeg_kwargs in
        img <~ convert_mode img ;;
        Image_save img out_path save_kwargs ;;;
        ret out_path
    end.

Definition resize_fit (img : nat) (max_px : Z) : M nat :=
  im <~ Image_copy img ;;
  thumbnail im (max_px, max_px) ;;;
  ret im.

(** The tuple [process_image] returns: [("ok", src, small, large)],
  [("skipped", src)] or [("error", src, message)]. *)
Inductive Outcome :=
| Ok (src small large : string)
| Skipped (src : string)
| Error (src msg : string).


Definition kind (o : Outcome) : string :=
  match o with
  | Ok _ _ _ => "ok"
  | Skipped _ => "skipped"
  | Error _ _ => "error"
  end.

Definition out_ext (in_path : Path) : string :=
  let ext := PyStr.lower (suffix in_path) in
  if PyStr.mem ext [".jpg"; ".jpeg"; ".png"; ".webp"] then ext else ".jpg".

Definition out_path (dir in_path : Path) : Path :=
  dir </> (stem in_path ++ out_ext in_path)%string.

(** The condition of the freshness test, with Python's short-circuit [and]. *)
Definition is_fresh (in_path small_out large_out : Path) : M bool :=
  and_then (path_exists small_out)
    (and_then (s <~ stat_mtime small_out ;; i <~ stat_mtime in_path ;; ret (i <=? s))
       (and_then (path_exists large_out)
          (l <~ stat_mtime large_out ;; i <~ stat_mtime in_path ;; ret (i <=? l)))).

(** The body of the [try] block of [process_image]. *)
Definition process_image_body (in_path small_dir large_dir : Path)
    (max_small max_large : Z) : M Outcome :=
  im0 <~ Image_open in_path ;;
  im0 <~ exif_transpose im0 ;;
  let small_out := out_path small_dir in_path in
  let large_out := out_path large_dir in_path in
  fresh <~ is_fresh in_path small_out large_out ;;
  if fresh then ret (Skipped (name in_path))
  else
    small_im <~ resize_fit im0 max_small ;;
    large_im <~ resize_fit im0 max_large ;;
    save_image small_im small_out ;;;
    save_image large_im large_out ;;;
    ret (Ok (name in_path) (name small_out) (name large_out)).

Definition process_image (in_path small_dir large_dir : Path)
    (max_small max_large : Z) : M Outcome :=
  try_except
    (process_image_body in_path small_dir large_dir max_small max_large)
    (fun e => ret (Error (name in_path) (exc_str e))).

(** The parsed command line. *)
Record Args := mkArgs {
  arg_src : Path;
  arg_small : Path;
  arg_large : Path;
  arg_max_small : Z;
  arg_max_large : Z }.

Definition default_args : Args :=
  mkArgs ["images"] ["images"; "small"] ["images"; "large"] 1200 2400.

(** [results[kind] += 1] *)
Definition count (results : gmap string nat) (k : string) : M (gmap string nat) :=
  match results !! k with
  | Some n => ret (<[k := S n]> results)
  | None => raise (mkExc "KeyError" k)
  end.

(** The [for p in imgs] loop; what is printed is returned as a list. *)
Fixpoint main_loop (args : Args) (imgs : list Path) (results : gmap string nat)
    : M (list Outcome * gmap string nat) :=
  match imgs with
  | [] => ret ([], results)
  | p :: rest =>
      o <~ process_image p (arg_small args) (arg_large args)
             (arg_max_small args) (arg_max_large args) ;;
      results <~ count results (kind o) ;;
      r <~ main_loop args rest results ;;
      ret (o :: fst r, snd r)
  end.

(** The scan: regular files of the source directory with an image suffix. *)
Definition scan (d : Path) : M (list Path) :=
  listing <~ iterdir d ;;
  fun w =>
    (inr (List.filter
            (fun p => match files w !! p with Some _ => true | None => false end
                      && is_image p) listing), w).

Definition initial_results : gmap string nat :=
  <["error" := 0%nat]> (<["skipped" := 0%nat]> (<["ok" := 0%nat]> ∅)).

(** [main]: the printed outcomes and the summary.  Directories are implicit
  in the world: the two [mkdir] calls change nothing here, and neither
  they nor the listing of a missing source directory can raise. *)
Definition main (args : Args) : M (list Outcome * gmap string nat) :=
  imgs <~ scan (arg_src args) ;;
  main_loop args imgs initial_results.

End World.

Arguments Image : clear implicits.
Arguments Content : clear implicits.
Arguments File : clear implicits.
Arguments World : clear implicits.
Arguments Pillow : clear implicits.
Arguments M : clear implicits.

(** ** A small implementation of the interface

  Used to run the script on concrete worlds.  Foreign bytes decode when
  they are exactly two bytes, read as width and height of an RGB image;
  anything else is not an image.  The encoders refuse mode [F] as JPEG. *)

Module Simple.

Definition simple_decode (c : Content unit) : PyExc + Image unit :=
  match c with
  | Encoded _ _ img => inr img
  | Bytes [w; h] => inr (mkImage "RGB" (Z.of_N (Byte.to_N w)) (Z.of_N (Byte.to_N h)) tt)
  | Bytes _ => inl (mkExc "UnidentifiedImageError" "cannot identify image file")
  end.

Definition simple_encode_error (fmt : Format) (kw : Kwargs) (img : Image unit) : option PyExc :=
  match fmt with
  | JPEG => if String.eqb (mode img) "F"
            then Some (mkExc "OSError" "cannot write mode F as JPEG") else None
  | _ => None
  end.

#[global] Instance pillow : Pillow unit := {|
  decode := simple_decode;
  transpose := inr;
  resample := fun r _ _ => r;
  convert_raster := fun _ _ r => r;
  encode_error := simple_encode_error;
  partial_output := fun _ _ _ => [];
  clock := fun k => 1000 + Z.of_nat k |}.

(** A world of files with an empty heap. *)
Definition world (fs : list (Path * File unit)) : World unit :=
  mkWorld (list_to_map fs) 0 [].

(** The two images of the scenario, loaded on an otherwise empty world. *)
Definition photo : Image unit := mkImage "RGB" 3000 2000 tt.
Definition icon : Image unit := mkImage "RGBA" 500 300 tt.
Definition loaded : World unit := mkWorld ∅ 0 [photo; icon].

(** A source directory after an earlier run: [a.jpg] with both derivatives,
  and an unreadable [c.jpg] whose derivatives are newer than it. *)
Definition second_visit : World unit :=
  world
    [ (["images"; "a.jpg"], mkFile (Encoded JPEG [] photo) 5);
      (["images"; "small"; "a.jpg"], mkFile (Encoded JPEG jpeg_kwargs photo) 5);
      (["images"; "large"; "a.jpg"], mkFile (Encoded JPEG jpeg_kwargs photo) 7);
      (["images"; "c.jpg"], mkFile (Bytes []) 5);
      (["images"; "small"; "c.jpg"], mkFile (Encoded JPEG jpeg_kwargs photo) 9);
      (["images"; "large"; "c.jpg"], mkFile (Encoded JPEG jpeg_kwargs photo) 9) ].

(** A source directory whose files carry upper-case extensions. *)
Definition shouting : World unit :=
  world
    [ (["images"; "A.JPG"], mkFile (Encoded JPEG [] photo) 5);
      (["images"; "IMG.PNG"], mkFile (Encoded PNG [] icon) 5) ].

(** A source directory holding one TIFF scan. *)
Definition scans : World unit :=
  world [ (["images"; "b.tiff"], mkFile (Encoded TIFF [] icon) 5) ].

(** The same library on a system whose clock steps back after the first
  write. *)
Definition stepping_back : Pillow unit := {|
  decode := simple_decode;
  transpose := inr;
  resample := fun r _ _ => r;
  convert_raster := fun _ _ r => r;
  encode_error := simple_encode_error;
  partial_output := fun _ _ _ => [];
  clock := fun k => match k with O => 1001 | S _ => 1000 end |}.

(** Source directories for two runs in a row: one unreadable file; one
  file dated after the clock; one good file. *)
Definition only_corrupt : World unit :=
  world [ (["images"; "c.jpg"], mkFile (Bytes []) 5) ].
Definition from_the_future : World unit :=
  world [ (["images"; "a.jpg"], mkFile (Encoded JPEG [] photo) 5000) ].
Definition one_photo : World unit :=
  world [ (["images"; "a.jpg"], mkFile (Encoded JPEG [] photo) 5) ].

(** Arguments that put the large, or the small, derivatives into the
  source directory itself. *)
Definition large_in_src : Args := mkArgs ["images"] ["images"; "small"] ["images"] 1200 2400.
Definition small_in_src : Args := mkArgs ["images"] ["images"] ["images"; "large"] 1200 2400.

(** The outcomes a run of [main] has printed. *)
Definition printed (r : (PyExc + list Outcome * gmap string nat) * World unit)
    : option (list Outcome) :=
  match fst r with
  | inr (outs, _) => Some outs
  | inl _ => None
  end.

(** The directory of the two-file scenario: [a.jpg] and [b.png]. *)
Definition scenario : World unit :=
  world
    [ (["images"; "a.jpg"], mkFile (Encoded JPEG [] photo) 5);
      (["images"; "b.png"], mkFile (Encoded PNG [] icon) 6) ].

(** The mode and size of the image a file holds. *)
Definition shape (w : World unit) (p : Path) : option (Format * string * Z * Z) :=
  match files w !! p with
  | Some (mkFile (Encoded fmt _ img) _) => Some (fmt, mode img, width img, height img)
  | _ => None
  end.

(** What a run leaves to look at: the result and the files. *)
Definition observe {A} (r : (PyExc + A) * World unit)
    : (PyExc + A) * list (Path * File unit) :=
  (fst r, map_to_list (files (snd r))).

End Simple.

(** ** Values the script computes, as pure functions

  These restate, without the heap, what [resize_fit], [convert_mode] and
  the freshness test compute; the properties below relate them to the
  script. *)

(** The paths [process_image] may write: those directly inside one of the
  two output directories. *)
Definition in_outputs (small_dir large_dir q : Path) : Prop :=
  parent q = small_dir \/ parent q = large_dir.

(** How many of the outcomes are of kind [k]. *)
Definition tally (k : string) (outs : list Outcome) : nat :=
  length (List.filter (fun o => String.eqb (kind o) k) outs).

Section Views.

Context {Raster : Type} {lib : Pillow Raster}.

Definition with_heap (w : World Raster) (h : list (Image Raster)) : World Raster :=
  mkWorld (files w) (ticks w) h.

(** The image value [thumbnail((n, n))] leaves in an object holding [img]. *)
Definition fitted (img : Image Raster) (n : Z) : PyExc + Image Raster :=
  match preserve_aspect_ratio (width img) (height img) n n with
  | inl e => inl e
  | inr None => inr img
  | inr (Some size) =>
      if bool_decide ((width img, height img) = size) then inr img
      else resize img size
  end.

(** The modes [convert_mode] converts, and the image it converts to. *)
Definition needs_rgb (m : string) : bool :=
  PyStr.mem m ["P"; "LA"; "RGBA"; "CMYK"; "P;16"; "I;16"] || String.eqb m "L".

Definition to_rgb (img : Image Raster) : Image Raster :=
  mkImage "RGB" (width img) (height img) (convert_raster (mode img) "RGB" (im img)).

Definition normalized (img : Image Raster) : Image Raster :=
  if needs_rgb (mode img) then to_rgb img else img.

(** The branch of [save_image] a lower-cased suffix selects: the format,
  the keyword arguments, and whether the JPEG fallback renames the file. *)
Definition is_fallback (ext : string) : bool :=
  negb (PyStr.mem ext [".jpg"; ".jpeg"; ".png"; ".webp"]).

Definition branch_format (ext : string) : Format :=
  if PyStr.mem ext [".jpg"; ".jpeg"] then JPEG
  else if String.eqb ext ".png" then PNG
  else if String.eqb ext ".webp" then WEBP
  else JPEG.

Definition branch_kwargs (fmt : Format) : Kwargs :=
  match fmt with
  | PNG => png_kwargs
  | WEBP => webp_kwargs
  | _ => jpeg_kwargs
  end.

(** The image handed to the encoder of format [fmt]. *)
Definition saved_as (fmt : Format) (img : Image Raster) : Image Raster :=
  match fmt with
  | JPEG => normalized img
  | _ => img
  end.

(** The world after the next write puts [c] at [p]. *)
Definition written (w : World Raster) (p : Path) (c : Content Raster) : World Raster :=
  mkWorld (<[p := mkFile c (clock (ticks w))]> (files w)) (S (ticks w)) (heap w).

(** The value of the freshness test for a source file [f]. *)
Definition fresh_wrt (f : File Raster) (fs : gmap Path (File Raster))
    (small_out large_out : Path) : bool :=
  match fs !! small_out with
  | None => false
  | Some s =>
      (st_mtime f <=? st_mtime s) &&
      match fs !! large_out with
      | None => false
      | Some l => st_mtime f <=? st_mtime l
      end
  end.

(** A source that opens and whose two derivatives are fresh. *)
Definition settled (fs : gmap Path (File Raster)) (small_dir large_dir p : Path) : Prop :=
  exists f i0 i1,
    fs !! p = Some f /\ decode (content f) = inr i0 /\ transpose i0 = inr i1 /\
    fresh_wrt f fs (out_path small_dir p) (out_path large_dir p) = true.

(** The part of [process_image] that follows a failed freshness test. *)
Definition write_derivatives (in_path small_out large_out : Path) (im0 : nat)
    (max_small max_large : Z) : M Raster Outcome :=
  bind (resize_fit im0 max_small) (fun small_im =>
  bind (resize_fit im0 max_large) (fun large_im =>
  bind (save_image small_im small_out) (fun _ =>
  bind (save_image large_im large_out) (fun _ =>
  ret (Ok (name in_path) (name small_out) (name large_out)))))).

(** [w'] differs from [w] at most by writes made since [w], all of them to
  paths in [P]. *)
Definition writes_within (P : Path -> Prop) (w w' : World Raster) : Prop :=
  (ticks w <= ticks w')%nat /\
  forall q,
    files w' !! q = files w !! q \/
    (P q /\ exists c k, (ticks w <= k)%nat /\ files w' !! q = Some (mkFile c (clock k))).

Definition touches (P : Path -> Prop) {A} (m : M Raster A) : Prop :=
  forall w, writes_within P w (snd (m w)).

(** The image an object refers to in the world a computation ends in. *)
Definition result_image (r : (PyExc + nat) * World Raster) : PyExc + Image Raster :=
  match r with
  | (inr ref, w) =>
      match heap w !! ref with
      | Some img => inr img
      | None => inl ReferenceError
      end
  | (inl e, _) => inl e
  end.

End Views.

(** ** Whether the derivatives get written, as a pure function *)

Section Failures.

Context {Raster : Type} {lib : Pillow Raster}.

(** The exception [save_image] raises for an image and a path whose suffix
  is one of the four it encodes, if it raises. *)
Definition save_failure (p : Path) (img : Image Raster) : option PyExc :=
  let fmt := branch_format (PyStr.lower (suffix p)) in
  match registered_extension (PyStr.lower (PyStr.splitext_ext (name p))) with
  | None => Some (ValueError ("unknown file extension: " ++ PyStr.splitext_ext (name p)))
  | Some _ => encode_error fmt (branch_kwargs fmt) (saved_as fmt img)
  end.

(** What the part of [process_image] after a failed freshness test returns
  for the transposed image [i1]. *)
Definition derive_outcome (in_path small_out large_out : Path) (i1 : Image Raster)
    (max_small max_large : Z) : PyExc + Outcome :=
  match fitted i1 max_small with
  | inl e => inl e
  | inr small_im =>
      match fitted i1 max_large with
      | inl e => inl e
      | inr large_im =>
          match save_failure small_out small_im with
          | Some e => inl e
          | None =>
              match save_failure large_out large_im with
              | Some e => inl e
              | None => inr (Ok (name in_path) (name small_out) (name large_out))
              end
          end
      end
  end.

End Failures.

(** A library whose WebP encoder refuses images with an edge of more than
  16383 pixels, and a directory holding one very large WebP file. *)
Module Webp.

Definition webp_encode_error (fmt : Format) (kw : Kwargs) (img : Image unit) : option PyExc :=
  match fmt with
  | WEBP => if (16383 <? width img) || (16383 <? height img)
            then Some (mkExc "ValueError" "encoding error 5: Image size exceeds WebP limit of 16383 pixels")
            else None
  | _ => None
  end.

Definition limited : Pillow unit := {|
  decode := Simple.simple_decode;
  transpose := inr;
  resample := fun r _ _ => r;
  convert_raster := fun _ _ r => r;
  encode_error := webp_encode_error;
  partial_output := fun _ _ _ => [];
  clock := fun k => 1000 + Z.of_nat k |}.

Definition panorama : Image unit := mkImage "RGB" 20000 10000 tt.

Definition gallery : World unit :=
  Simple.world [ (["images"; "pano.webp"], mkFile (Encoded WEBP [] panorama) 5) ].

End Webp.

(** A library whose JPEG encoder refuses images with an edge of more than
  65500 pixels, and a directory holding one long, narrow TIFF scan. *)
Module Strip.

Definition jpeg_encode_error (fmt : Format) (kw : Kwargs) (img : Image unit) : option PyExc :=
  match fmt with
  | JPEG => if (65500 <? width img) || (65500 <? height img)
            then Some (mkExc "ValueError" "Maximum supported image dimension is 65500 pixels")
            else None
  | _ => None
  end.

Definition limited : Pillow unit := {|
  decode := Simple.simple_decode;
  transpose := inr;
  resample := fun r _ _ => r;
  convert_raster := fun _ _ r => r;
  encode_error := jpeg_encode_error;
  partial_output := fun _ _ _ => [];
  clock := fun k => 1000 + Z.of_nat k |}.

Definition scroll : Image unit := mkImage "RGB" 70000 1000 tt.

Definition archive : World unit :=
  Simple.world [ (["images"; "scroll.tif"], mkFile (Encoded TIFF [] scroll) 5) ].

(** An image object without any row of pixels. *)
Definition flat : World unit := mkWorld ∅ 0 [mkImage "RGB" 5 0 tt].

End Strip.

(** * Properties *)

(** ** Names, stems and suffixes *)

Section PathFacts.

Import PyStr.

Lemma str_length_app (s t : string) :
  String.length (s ++ t) = (String.length s + String.length t)%nat.
Proof. induction s as [|c s IH]; simpl; [reflexivity | now rewrite IH]. Qed.

Lemma rfind_dot_app (s t : string) :
  rfind_dot t = None ->
  rfind_dot (s ++ String "." t) = Some (String.length s).
Proof.
  intros Ht. induction s as [|c s IH]; simpl.
  - now rewrite Ht.
  - now rewrite IH.
Qed.

Lemma drop_app (s t : string) : drop (String.length s) (s ++ t) = t.
Proof. induction s as [|c s IH]; simpl; [now destruct t | exact IH]. Qed.

Lemma take_app (s t : string) : take (String.length s) (s ++ t) = s.
Proof. induction s as [|c s IH]; simpl; [reflexivity | now rewrite IH]. Qed.

Lemma split_at_dot_ext (s t : string) :
  s <> "" -> t <> "" -> rfind_dot t = None ->
  split_at_dot (s ++ String "." t) = Some (String.length s).
Proof.
  intros Hs Ht Hd. unfold split_at_dot. rewrite rfind_dot_app by exact Hd.
  rewrite str_length_app. simpl.
  destruct s as [|c s]; [congruence|]. destruct t as [|c' t]; [congruence|].
  simpl.
  replace (String.length s + S (S (String.length t)) - 0)%nat
    with (S (S (String.length s + String.length t))) by lia.
  destruct (Nat.ltb_spec (S (String.length s)) (S (S (String.length s + String.length t))));
    [reflexivity | lia].
Qed.

Lemma name_join (d : Path) (n : string) : name (d </> n) = n.
Proof. unfold name, joinpath. apply List.last_last. Qed.

Lemma parent_join (d : Path) (n : string) : parent (d </> n) = d.
Proof. unfold parent, joinpath. apply List.removelast_last. Qed.

Lemma suffix_join_ext (d : Path) (s t : string) :
  s <> "" -> t <> "" -> rfind_dot t = None ->
  suffix (d </> (s ++ String "." t)%string) = String "." t.
Proof.
  intros Hs Ht Hd. unfold suffix. rewrite name_join, split_at_dot_ext by assumption.
  apply drop_app.
Qed.

Lemma stem_join_ext (d : Path) (s t : string) :
  s <> "" -> t <> "" -> rfind_dot t = None ->
  stem (d </> (s ++ String "." t)%string) = s.
Proof.
  intros Hs Ht Hd. unfold stem. rewrite name_join, split_at_dot_ext by assumption.
  apply take_app.
Qed.

Lemma stem_nonempty (p : Path) : name p <> "" -> stem p <> "".
Proof.
  intros Hn. unfold stem, split_at_dot.
  destruct (rfind_dot (name p)) as [i|]; [|exact Hn].
  destruct (Nat.ltb_spec 0 i); simpl; [|exact Hn].
  destruct (i <? String.length (name p) - 1)%nat; [|exact Hn].
  destruct i as [|i]; [lia|]. destruct (name p); [congruence | discriminate].
Qed.

Lemma mem_In (s : string) (l : list string) : mem s l = true <-> In s l.
Proof.
  unfold mem. rewrite existsb_exists. split.
  - intros (x & Hx & He). apply String.eqb_eq in He. now subst.
  - intros H. exists s. split; [exact H | apply String.eqb_refl].
Qed.

(** The extension [process_image] computes is one of the four encodable
  ones, whatever the input. *)
Lemma out_ext_cases (p : Path) :
  In (out_ext p) [".jpg"; ".jpeg"; ".png"; ".webp"].
Proof.
  unfold out_ext.
  destruct (mem (lower (suffix p)) [".jpg"; ".jpeg"; ".png"; ".webp"]) eqn:E.
  - now apply mem_In.
  - now left.
Qed.

Lemma out_ext_shape (p : Path) :
  exists t, out_ext p = String "." t /\ t <> "" /\ rfind_dot t = None.
Proof.
  destruct (out_ext_cases p) as [H|[H|[H|[H|[]]]]]; rewrite <- H;
    eexists; (split; [reflexivity | split; [discriminate | reflexivity]]).
Qed.

Lemma suffix_out_path (d p : Path) :
  name p <> "" -> suffix (out_path d p) = out_ext p.
Proof.
  intros Hn. unfold out_path. destruct (out_ext_shape p) as (t & -> & Ht & Hd).
  apply suffix_join_ext; auto using stem_nonempty.
Qed.

Lemma stem_out_path (d p : Path) :
  name p <> "" -> stem (out_path d p) = stem p.
Proof.
  intros Hn. unfold out_path. destruct (out_ext_shape p) as (t & -> & Ht & Hd).
  apply stem_join_ext; auto using stem_nonempty.
Qed.

Lemma name_out_path (d p : Path) :
  name (out_path d p) = (stem p ++ out_ext p)%string.
Proof. apply name_join. Qed.

Lemma parent_out_path (d p : Path) : parent (out_path d p) = d.
Proof. apply parent_join. Qed.

Lemma out_path_nonempty (d p : Path) : out_path d p <> [].
Proof. unfold out_path, joinpath. now destruct d. Qed.

End PathFacts.

(** ** The resizer *)

Section Resizer.

Context {Raster : Type} {lib : Pillow Raster}.

Lemma Q_scaled_eq (n w h : Z) :
  0 < h -> (inject_Z n * (inject_Z w / inject_Z h) == (n * w) # Z.to_pos h)%Q.
Proof.
  intros Hh. destruct h as [|p|p]; try lia.
  unfold Qeq, Qdiv, Qmult, Qinv, inject_Z; simpl. lia.
Qed.

Lemma Q_div_aspect_eq (n w h : Z) :
  0 < h -> 0 < w ->
  (inject_Z n / (inject_Z w / inject_Z h) == (n * h) # Z.to_pos w)%Q.
Proof.
  intros Hh Hw. destruct h as [|p|p]; try lia. destruct w as [|q|q]; try lia.
  unfold Qeq, Qdiv, Qmult, Qinv, inject_Z; simpl. lia.
Qed.

Lemma Qle_bool_aspect (w h n : Z) :
  0 < h -> 0 < n ->
  Qle_bool (inject_Z w / inject_Z h) (inject_Z n / inject_Z n) = (w <=? h).
Proof.
  intros Hh Hn. destruct h as [|p|p]; try lia. destruct n as [|q|q]; try lia.
  unfold Qle_bool, Qdiv, Qmult, Qinv, inject_Z; simpl.
  apply eq_true_iff_eq. rewrite !Z.leb_le. nia.
Qed.

(** Whatever the key prefers, [round_aspect] of a positive fraction [a/d]
  is a positive integer less than one away from it. *)
Lemma round_aspect_near (number : Q) (key : Z -> Q) (a d : Z) :
  0 < d -> 0 < a -> (number == a # Z.to_pos d)%Q ->
  1 <= round_aspect number key /\ Z.abs (round_aspect number key * d - a) < d.
Proof.
  intros Hd Ha E. unfold round_aspect.
  rewrite (Qfloor_comp _ _ E), (Qceiling_comp _ _ E).
  change (Qfloor (a # Z.to_pos d)) with (a / Zpos (Z.to_pos d)).
  change (Qceiling (a # Z.to_pos d)) with (- ((- a) / Zpos (Z.to_pos d))).
  rewrite Z2Pos.id by exact Hd.
  pose proof (Z.mul_div_le a d Hd) as F1.
  pose proof (Z.mul_succ_div_gt a d Hd) as F2.
  pose proof (Z.mul_div_le (- a) d Hd) as C1.
  pose proof (Z.mul_succ_div_gt (- a) d Hd) as C2.
  destruct (Qle_bool _ _); nia.
Qed.

Lemma round_aspect_le (number : Q) (key : Z -> Q) (a d n : Z) :
  0 < d -> 0 < a -> 1 <= n -> a <= n * d -> (number == a # Z.to_pos d)%Q ->
  round_aspect number key <= n.
Proof.
  intros Hd Ha Hn Hle E.
  destruct (round_aspect_near number key a d Hd Ha E) as [H1 H2]. nia.
Qed.

Lemma fitted_fits (img : Image Raster) (n : Z) :
  width img <= n -> height img <= n -> fitted img n = inr img.
Proof.
  intros Hw Hh. unfold fitted, preserve_aspect_ratio.
  destruct (Z.leb_spec (width img) n); [|lia].
  destruct (Z.leb_spec (height img) n); [|lia]. reflexivity.
Qed.

Lemma resize_ok (img : Image Raster) (x y : Z) :
  1 <= x -> 1 <= y ->
  resize img (x, y) =
    inr (mkImage (mode img) x y (resample (im img) (width img, height img) (x, y))).
Proof.
  intros Hx Hy. unfold resize. simpl.
  destruct (Z.ltb_spec x 1); [lia|]. destruct (Z.ltb_spec y 1); [lia|]. reflexivity.
Qed.

(** An image that does not fit is resized: its long edge becomes [n] and
  its short edge is [round_aspect] of the proportional length. *)
Lemma fitted_shrinks (img : Image Raster) (n : Z) :
  0 < n -> 0 < width img -> 0 < height img ->
  ~ (width img <= n /\ height img <= n) ->
  exists img',
    fitted img n = inr img' /\ mode img' = mode img /\
    1 <= width img' <= n /\ 1 <= height img' <= n /\
    (width img <= height img ->
       height img' = n /\ Z.abs (width img' * height img - n * width img) < height img) /\
    (height img < width img ->
       width img' = n /\ Z.abs (height img' * width img - n * height img) < width img).
Proof.
  intros Hn Hw Hh Hbig. unfold fitted, preserve_aspect_ratio.
  destruct ((width img <=? n) && (height img <=? n)) eqn:Efit.
  { apply andb_true_iff in Efit. rewrite !Z.leb_le in Efit. tauto. }
  destruct (Z.eqb_spec (height img) 0); [lia|].
  destruct (Z.eqb_spec n 0); [lia|].
  rewrite Qle_bool_aspect by assumption.
  destruct (Z.leb_spec (width img) (height img)) as [Hle|Hgt].
  - match goal with |- context [round_aspect ?q ?k] =>
      destruct (round_aspect_near q k (n * width img) (height img)) as [R1 R2];
        [lia | nia | apply Q_scaled_eq; lia |];
      pose proof (round_aspect_le q k (n * width img) (height img) n) as R3;
      set (r := round_aspect q k) in *
    end.
    assert (r <= n) as R4 by (apply R3; try lia; [nia | apply Q_scaled_eq; lia]).
    case_bool_decide as Esz.
    + exfalso. inversion Esz as [[E1 E2]]. lia.
    + rewrite resize_ok by lia. eexists. split; [reflexivity|]. simpl.
      repeat split; lia.
  - destruct (Z.eqb_spec (width img) 0); [lia|].
    match goal with |- context [round_aspect ?q ?k] =>
      destruct (round_aspect_near q k (n * height img) (width img)) as [R1 R2];
        [lia | nia | apply Q_div_aspect_eq; lia |];
      pose proof (round_aspect_le q k (n * height img) (width img) n) as R3;
      set (r := round_aspect q k) in *
    end.
    assert (r <= n) as R4 by (apply R3; try lia; [nia | apply Q_div_aspect_eq; lia]).
    case_bool_decide as Esz.
    + exfalso. inversion Esz as [[E1 E2]]. lia.
    + rewrite resize_ok by lia. eexists. split; [reflexivity|]. simpl.
      repeat split; lia.
Qed.

(** [resize_fit] allocates one object, initialised with a copy of its
  argument and shrunk in place; nothing else in the world changes. *)
Lemma resize_fit_eq (w : World Raster) (r : nat) (img : Image Raster) (n : Z) :
  heap w !! r = Some img ->
  resize_fit r n w =
    match fitted img n with
    | inr img' => (inr (length (heap w)), with_heap w (heap w ++ [img']))
    | inl e => (inl e, with_heap w (heap w ++ [img]))
    end.
Proof.
  intros Hr.
  unfold resize_fit, Image_copy, thumbnail, bind, deref, new_object, lift, assign, ret, fitted.
  rewrite Hr. cbn [heap files ticks].
  rewrite list_lookup_middle by reflexivity.
  destruct (preserve_aspect_ratio _ _ _ _) as [e|[size|]]; cbn; try reflexivity.
  case_bool_decide; [reflexivity|].
  destruct (resize img size) as [e|img']; cbn; [reflexivity|].
  unfold with_heap. do 2 f_equal.
  replace (length (heap w)) with (length (heap w) + 0)%nat at 1 by lia.
  now rewrite insert_app_r.
Qed.

Lemma resize_fit_dangling (w : World Raster) (r : nat) (n : Z) :
  heap w !! r = None -> resize_fit r n w = (inl ReferenceError, w).
Proof.
  intros Hr. unfold resize_fit, Image_copy, bind, deref. now rewrite Hr.
Qed.

Lemma result_image_resize_fit (w : World Raster) (r : nat) (img : Image Raster) (n : Z) :
  heap w !! r = Some img -> result_image (resize_fit r n w) = fitted img n.
Proof.
  intros Hr. rewrite (resize_fit_eq w r img n Hr).
  destruct (fitted img n) as [e|img']; [reflexivity|].
  unfold result_image, with_heap; cbn [heap].
  now rewrite list_lookup_middle.
Qed.

Lemma resize_fit_keeps_objects (w : World Raster) (r : nat) (n : Z) (i : nat) :
  (i < length (heap w))%nat ->
  heap (snd (resize_fit r n w)) !! i = heap w !! i.
Proof.
  intros Hi. destruct (heap w !! r) as [img|] eqn:Hr.
  - rewrite (resize_fit_eq w r img n Hr).
    destruct (fitted img n); cbn; now apply lookup_app_l.
  - now rewrite resize_fit_dangling.
Qed.

(** C3 (amended): for an image of positive size and a positive bound [n],
  [resize_fit] returns an image whose longest edge is at most [n] (exactly
  [n] when the source's longest edge is at least [n]), and whose shorter
  edge is less than one pixel away from the length that keeps the aspect
  ratio. *)
Theorem resize_fit_bounds (w : World Raster) (r : nat) (img : Image Raster) (n : Z) :
  heap w !! r = Some img -> 0 < n -> 0 < width img -> 0 < height img ->
  exists r' w' img',
    resize_fit r n w = (inr r', w') /\ heap w' !! r' = Some img' /\
    Z.max (width img') (height img') <= n /\
    (n <= Z.max (width img) (height img) -> Z.max (width img') (height img') = n) /\
    (width img <= height img ->
       Z.abs (width img' * height img - height img' * width img) < height img) /\
    (height img <= width img ->
       Z.abs (height img' * width img - width img' * height img) < width img).
Proof.
  intros Hr Hn Hw Hh. rewrite (resize_fit_eq w r img n Hr).
  destruct (Z_le_dec (width img) n) as [Hwn|Hwn];
    [destruct (Z_le_dec (height img) n) as [Hhn|Hhn]|].
  - rewrite fitted_fits by assumption.
    eexists _, _, img. split; [reflexivity|].
    split; [cbn; now rewrite list_lookup_middle|].
    repeat split; try lia.
  - destruct (fitted_shrinks img n Hn Hw Hh) as (img' & -> & _ & Bw & Bh & Tall & Wide); [lia|].
    eexists _, _, img'. split; [reflexivity|].
    split; [cbn; now rewrite list_lookup_middle|].
    destruct (Z_le_dec (width img) (height img)) as [L|L].
    + destruct (Tall L) as [E A]. rewrite E in *. repeat split; lia.
    + destruct (Wide ltac:(lia)) as [E A]. rewrite E in *. repeat split; lia.
  - destruct (fitted_shrinks img n Hn Hw Hh) as (img' & -> & _ & Bw & Bh & Tall & Wide); [lia|].
    eexists _, _, img'. split; [reflexivity|].
    split; [cbn; now rewrite list_lookup_middle|].
    destruct (Z_le_dec (width img) (height img)) as [L|L].
    + destruct (Tall L) as [E A]. rewrite E in *. repeat split; lia.
    + destruct (Wide ltac:(lia)) as [E A]. rewrite E in *. repeat split; lia.
Qed.

(** C7: when the image is already smaller than [n] in both width and
  height, [resize_fit] returns an image identical to the source, so with
  the same pixel dimensions: nothing is upscaled. *)
Theorem resize_fit_never_upscales (w : World Raster) (r : nat) (img : Image Raster) (n : Z) :
  heap w !! r = Some img -> width img < n -> height img < n ->
  exists r' w' img',
    resize_fit r n w = (inr r', w') /\ heap w' !! r' = Some img' /\
    width img' = width img /\ height img' = height img /\ img' = img.
Proof.
  intros Hr Hw Hh. rewrite (resize_fit_eq w r img n Hr).
  rewrite fitted_fits by lia.
  eexists _, _, img. split; [reflexivity|].
  split; [cbn; now rewrite list_lookup_middle|]. auto.
Qed.

(** C9: [resize_fit] works on a copy.  After a first call the object it
  was given still holds the same image (as does every object that existed
  before), no file has changed, the returned object is a new one, and a
  second call on the same object computes exactly what it would have
  computed before the first: both derivatives come from the same decoded
  image. *)
Theorem resize_fit_leaves_source (w : World Raster) (r : nat) (img : Image Raster) (n1 n2 : Z) :
  heap w !! r = Some img ->
  let first := resize_fit r n1 w in
  heap (snd first) !! r = Some img /\
  (forall i, (i < length (heap w))%nat -> heap (snd first) !! i = heap w !! i) /\
  files (snd first) = files w /\
  (forall r1, fst first = inr r1 -> r1 <> r) /\
  result_image first = fitted img n1 /\
  result_image (resize_fit r n2 (snd first)) = fitted img n2.
Proof.
  intros Hr first. subst first.
  pose proof (lookup_lt_Some _ _ _ Hr) as Hlt.
  assert (heap (snd (resize_fit r n1 w)) !! r = Some img) as Hkeep
    by (rewrite resize_fit_keeps_objects by exact Hlt; exact Hr).
  split; [exact Hkeep|].
  split; [intros i Hi; now apply resize_fit_keeps_objects|].
  split.
  { rewrite (resize_fit_eq w r img n1 Hr). now destruct (fitted img n1). }
  split.
  { intros r1. rewrite (resize_fit_eq w r img n1 Hr).
    destruct (fitted img n1); cbn; [discriminate|]. intros [= <-]. lia. }
  split; [now apply result_image_resize_fit|].
  now apply result_image_resize_fit.
Qed.

End Resizer.

Lemma resize_fit_bounds_witness :
  exists r' w' img',
    resize_fit 0 1200 Simple.loaded = (inr r', w') /\ heap w' !! r' = Some img' /\
    Z.max (width img') (height img') <= 1200 /\
    (1200 <= Z.max 3000 2000 -> Z.max (width img') (height img') = 1200) /\
    (3000 <= 2000 -> Z.abs (width img' * 2000 - height img' * 3000) < 2000) /\
    (2000 <= 3000 -> Z.abs (height img' * 3000 - width img' * 2000) < 3000).
Proof.
  apply (resize_fit_bounds Simple.loaded 0%nat Simple.photo 1200);
    [reflexivity | lia | simpl; lia | simpl; lia].
Defined.

(** For the bound 0 [thumbnail] divides by zero and for a negative bound it
  asks for an image of negative width, so [resize_fit] raises instead of
  returning an image; it also raises on an image without rows. *)
Lemma resize_fit_raises_outside_positive_sizes :
  heap Simple.loaded !! 0%nat = Some Simple.photo /\
  fst (resize_fit 0 0 Simple.loaded) = inl ZeroDivisionError /\
  fst (resize_fit 0 (-5) Simple.loaded) = inl (ValueError "height and width must be > 0") /\
  fst (resize_fit 0 3 Strip.flat) = inl ZeroDivisionError.
Proof.
  split; [reflexivity|].
  split; [vm_compute; reflexivity|].
  split; vm_compute; reflexivity.
Qed.

Lemma resize_fit_never_upscales_witness :
  exists r' w' img',
    resize_fit 1 1200 Simple.loaded = (inr r', w') /\ heap w' !! r' = Some img' /\
    width img' = 500 /\ height img' = 300 /\ img' = Simple.icon.
Proof.
  apply (resize_fit_never_upscales Simple.loaded 1%nat Simple.icon 1200);
    [reflexivity | simpl; lia | simpl; lia].
Defined.

Lemma resize_fit_leaves_source_witness :
  let first := resize_fit 0 1200 Simple.loaded in
  heap (snd first) !! 0%nat = Some Simple.photo /\
  (forall i, (i < length (heap Simple.loaded))%nat ->
     heap (snd first) !! i = heap Simple.loaded !! i) /\
  files (snd first) = files Simple.loaded /\
  (forall r1, fst first = inr r1 -> r1 <> 0%nat) /\
  result_image first = fitted Simple.photo 1200 /\
  result_image (resize_fit 0 2400 (snd first)) = fitted Simple.photo 2400.
Proof.
  apply (resize_fit_leaves_source Simple.loaded 0%nat Simple.photo 1200 2400).
  reflexivity.
Defined.


(** ** The mode normaliser and the encoder *)

Section Encoder.

Context {Raster : Type} {lib : Pillow Raster}.

Import PyStr.

Lemma take_drop (i : nat) (s : string) : (take i s ++ drop i s)%string = s.
Proof.
  revert s. induction i as [|i IH]; intros [|c s]; simpl; try reflexivity.
  change (String c (take i s ++ drop i s) = String c s). f_equal. apply IH.
Qed.

Lemma length_drop (i : nat) (s : string) :
  String.length (drop i s) = (String.length s - i)%nat.
Proof.
  revert s. induction i as [|i IH]; intros [|c s]; simpl; try reflexivity. apply IH.
Qed.

Lemma str_app_inv_head (s t u : string) : (s ++ t)%string = (s ++ u)%string -> t = u.
Proof.
  induction s as [|c s IH]; [auto|].
  change (String c (s ++ t) = String c (s ++ u) -> t = u). intros [= H]. auto.
Qed.

Lemma splitext_ext_app (s t : string) :
  rfind_dot t = None ->
  splitext_ext (s ++ String "." t) = if all_dots s then ""%string else String "." t.
Proof.
  intros Ht. unfold splitext_ext. rewrite rfind_dot_app by exact Ht.
  now rewrite take_app, drop_app.
Qed.

(** Where [pathlib] sees a suffix, [os.path.splitext] sees the same one,
  or none when only dots come before it. *)
Lemma splitext_ext_suffix (p : Path) :
  suffix p <> "" ->
  splitext_ext (name p) = suffix p \/ splitext_ext (name p) = "".
Proof.
  unfold suffix, split_at_dot, splitext_ext.
  destruct (rfind_dot (name p)) as [i|]; [|congruence].
  destruct ((0 <? i)%nat && (i <? String.length (name p) - 1)%nat); [|congruence].
  intros _. destruct (all_dots _); auto.
Qed.

Lemma convert_mode_eq (w : World Raster) (r : nat) (img : Image Raster) :
  heap w !! r = Some img ->
  convert_mode r w =
    if needs_rgb (mode img)
    then (inr (length (heap w)), with_heap w (heap w ++ [to_rgb img]))
    else (inr r, w).
Proof.
  intros Hr. unfold convert_mode, needs_rgb, Image_convert, bind, deref, new_object, ret.
  rewrite Hr.
  destruct (mem (mode img) _); cbn; [now rewrite Hr|].
  destruct (String.eqb (mode img) "L"); cbn; [now rewrite Hr|reflexivity].
Qed.

(** After [convert_mode] the returned object holds the normalised image. *)
Lemma convert_mode_result (w : World Raster) (r : nat) (img : Image Raster) :
  heap w !! r = Some img ->
  exists r' h,
    convert_mode r w = (inr r', with_heap w h) /\ h !! r' = Some (normalized img) /\
    (forall i x, heap w !! i = Some x -> h !! i = Some x).
Proof.
  intros Hr. rewrite (convert_mode_eq w r img Hr). unfold normalized.
  destruct (needs_rgb (mode img)).
  - eexists _, _. split; [reflexivity|]. split.
    + now apply list_lookup_middle.
    + intros i x Hi. rewrite lookup_app_l; eauto using lookup_lt_Some.
  - exists r, (heap w). split; [now destruct w|]. auto.
Qed.

Lemma Image_save_eq (w : World Raster) (r : nat) (img : Image Raster) (p : Path) (kw : Kwargs) :
  heap w !! r = Some img ->
  Image_save r p kw w =
    match registered_extension (lower (splitext_ext (name p))) with
    | None => (inl (ValueError ("unknown file extension: " ++ splitext_ext (name p))), w)
    | Some fmt =>
        match encode_error fmt kw img with
        | None => (inr tt, written w p (Encoded fmt kw img))
        | Some e =>
            match files w !! p with
            | Some _ => (inl e, written w p (Bytes (partial_output fmt kw img)))
            | None => (inl e, w)
            end
        end
    end.
Proof.
  intros Hr. unfold Image_save, bind, deref, raise. rewrite Hr.
  destruct (registered_extension _); reflexivity.
Qed.

Lemma registered_suffix (p : Path) (fmt : Format) :
  registered_extension (lower (splitext_ext (name p))) = Some fmt ->
  suffix p <> "" ->
  registered_extension (lower (suffix p)) = Some fmt.
Proof.
  intros Hreg Hs. destruct (splitext_ext_suffix p Hs) as [E|E]; rewrite E in Hreg.
  - exact Hreg.
  - discriminate.
Qed.

Lemma lower_nonempty (s : string) : lower s <> "" -> s <> "".
Proof. now destruct s. Qed.

Lemma branch_registered (ext : string) (fmt : Format) :
  is_fallback ext = false ->
  registered_extension ext = Some fmt -> fmt = branch_format ext.
Proof.
  unfold is_fallback. intros Hf. apply negb_false_iff, mem_In in Hf.
  destruct Hf as [<-|[<-|[<-|[<-|[]]]]]; cbv; congruence.
Qed.

Lemma supported_nonempty (ext : string) : is_fallback ext = false -> ext <> "".
Proof. intros Hf ->. discriminate. Qed.

Lemma path_split (p : Path) : name p <> "" -> p = parent p </> name p.
Proof.
  intros Hn. unfold parent, name, joinpath. apply app_removelast_last.
  intros ->. now apply Hn.
Qed.

(** [with_suffix(".jpg")] keeps the directory and replaces the suffix. *)
Lemma with_suffix_jpg (p p2 : Path) :
  with_suffix p ".jpg" = Some p2 ->
  exists base,
    p2 = parent p </> (base ++ ".jpg")%string /\ name p <> "" /\
    name p = (base ++ suffix p)%string.
Proof.
  unfold with_suffix. simpl.
  destruct (String.eqb_spec (name p) "") as [|Hn]; [discriminate|].
  destruct (String.eqb_spec (suffix p) "") as [E|E]; intros [= <-].
  - exists (name p). rewrite E. split; [reflexivity|]. split; [exact Hn|].
    clear. induction (name p) as [|c s IH]; [reflexivity|].
    change (String c s = String c (s ++ "")). now rewrite <- IH.
  - eexists. split; [reflexivity|]. split; [exact Hn|].
    unfold suffix in *. destruct (split_at_dot (name p)) as [i|] eqn:Ei; [|congruence].
    rewrite length_drop.
    assert (i < String.length (name p))%nat as Hi.
    { unfold split_at_dot in Ei. destruct (rfind_dot (name p)); [|discriminate].
      destruct (Nat.ltb_spec 0 n); simpl in Ei; [|discriminate].
      destruct (Nat.ltb_spec n (String.length (name p) - 1)); [|discriminate].
      injection Ei as <-. lia. }
    replace (String.length (name p) - (String.length (name p) - i))%nat with i by lia.
    symmetry. apply take_drop.
Qed.

Lemma with_suffix_jpg_differs (p p2 : Path) :
  is_fallback (lower (suffix p)) = true ->
  with_suffix p ".jpg" = Some p2 -> p2 <> p.
Proof.
  intros Hf Hw E. subst p2.
  destruct (with_suffix_jpg p p Hw) as (base & Hp & Hn & Hname).
  rewrite (path_split p Hn) in Hp at 1.
  apply app_inj_tail in Hp as [_ Hp]. rewrite Hname in Hp at 1.
  apply str_app_inv_head in Hp. rewrite Hp in Hf. discriminate.
Qed.

Lemma save_chain_ok (w w' : World Raster) (r : nat) (img : Image Raster)
    (q res : Path) (kw : Kwargs) :
  heap w !! r = Some img ->
  bind (Image_save r q kw) (fun _ => ret q) w = (inr res, w') ->
  exists fmt,
    registered_extension (lower (splitext_ext (name q))) = Some fmt /\
    encode_error fmt kw img = None /\ res = q /\
    w' = written w q (Encoded fmt kw img).
Proof.
  intros Hr. unfold bind. rewrite (Image_save_eq w r img q kw Hr).
  destruct (registered_extension _) as [fmt|]; [|discriminate].
  destruct (encode_error fmt kw img) eqn:Henc; [destruct (files w !! q); discriminate|].
  unfold ret. intros [= <- <-]. exists fmt. auto.
Qed.

Lemma save_jpeg_ok (w w' : World Raster) (r : nat) (img : Image Raster) (q res : Path) :
  heap w !! r = Some img ->
  bind (convert_mode r) (fun i => bind (Image_save i q jpeg_kwargs) (fun _ => ret q)) w
    = (inr res, w') ->
  exists fmt,
    registered_extension (lower (splitext_ext (name q))) = Some fmt /\
    encode_error fmt jpeg_kwargs (normalized img) = None /\ res = q /\
    files w' = <[q := mkFile (Encoded fmt jpeg_kwargs (normalized img)) (clock (ticks w))]> (files w) /\
    ticks w' = S (ticks w) /\
    (forall i x, heap w !! i = Some x -> heap w' !! i = Some x).
Proof.
  intros Hr. unfold bind at 1.
  destruct (convert_mode_result w r img Hr) as (r' & h & -> & Hh & Hext).
  intros Hs. apply (save_chain_ok (with_heap w h) w' r' (normalized img)) in Hs; [|exact Hh].
  destruct Hs as (fmt & Hreg & Henc & -> & ->). exists fmt. auto 10.
Qed.

(** What a successful [save_image] has done: one write, to the path it
  returns, of the image in the encoding its branch selects; the image is
  normalised exactly in the JPEG branches. *)
Lemma save_image_ok (w w' : World Raster) (r : nat) (img : Image Raster) (p p' : Path) :
  heap w !! r = Some img ->
  save_image r p w = (inr p', w') ->
  let ext := lower (suffix p) in
  let fmt := branch_format ext in
  let img' := saved_as fmt img in
  (if is_fallback ext then with_suffix p ".jpg" = Some p' else p' = p) /\
  registered_extension (lower (splitext_ext (name p'))) = Some fmt /\
  encode_error fmt (branch_kwargs fmt) img' = None /\
  files w' = <[p' := mkFile (Encoded fmt (branch_kwargs fmt) img') (clock (ticks w))]> (files w) /\
  ticks w' = S (ticks w) /\
  (forall i x, heap w !! i = Some x -> heap w' !! i = Some x).
Proof.
  intros Hr Hs ext fmt img'. subst fmt img'. unfold saved_as, save_image in Hs. fold ext in Hs.
  unfold saved_as.
  unfold is_fallback, branch_format.
  destruct (mem ext [".jpg"; ".jpeg"]) eqn:Ej.
  - assert (is_fallback ext = false) as Hf.
    { unfold is_fallback. apply negb_false_iff, mem_In.
      apply mem_In in Ej. destruct Ej as [<-|[<-|[]]]; simpl; auto. }
    unfold is_fallback in Hf. apply negb_false_iff in Hf. rewrite Hf. cbn [negb].
    apply (save_jpeg_ok w w' r img p p' Hr) in Hs.
    destruct Hs as (fmt & Hreg & Henc & -> & Hfiles & Hticks & Hheap).
    assert (fmt = JPEG) as ->.
    { apply registered_suffix in Hreg.
      - fold ext in Hreg. apply mem_In in Ej.
        destruct Ej as [E|[E|[]]]; rewrite <- E in Hreg; cbv in Hreg; congruence.
      - apply lower_nonempty. fold ext. intros E. rewrite E in Ej. discriminate. }
    auto 10.
  - destruct (String.eqb_spec ext ".png") as [Ep|Ep].
    + rewrite Ep. cbn [mem existsb String.eqb Ascii.eqb Bool.eqb orb negb].
      apply (save_chain_ok w w' r img p p' _ Hr) in Hs.
      destruct Hs as (fmt & Hreg & Henc & -> & ->).
      assert (fmt = PNG) as ->.
      { apply registered_suffix in Hreg.
        - fold ext in Hreg. rewrite Ep in Hreg. cbv in Hreg. congruence.
        - apply lower_nonempty. fold ext. now rewrite Ep. }
      auto 10.
    + destruct (String.eqb_spec ext ".webp") as [Ew|Ew].
      * rewrite Ew. cbn [mem existsb String.eqb Ascii.eqb Bool.eqb orb negb].
        apply (save_chain_ok w w' r img p p' _ Hr) in Hs.
        destruct Hs as (fmt & Hreg & Henc & -> & ->).
        assert (fmt = WEBP) as ->.
        { apply registered_suffix in Hreg.
          - fold ext in Hreg. rewrite Ew in Hreg. cbv in Hreg. congruence.
          - apply lower_nonempty. fold ext. now rewrite Ew. }
        auto 10.
      * assert (mem ext [".jpg"; ".jpeg"; ".png"; ".webp"] = false) as Hf.
        { destruct (mem ext [".jpg"; ".jpeg"; ".png"; ".webp"]) eqn:E; [|reflexivity].
          apply mem_In in E. destruct E as [E|[E|[E|[E|[]]]]]; try congruence;
            rewrite <- E in Ej; discriminate. }
        rewrite Hf. cbn [negb].
        destruct (with_suffix p ".jpg") as [p2|] eqn:Ews; [|discriminate].
        apply (save_jpeg_ok w w' r img p2 p' Hr) in Hs.
        destruct Hs as (fmt & Hreg & Henc & -> & Hfiles & Hticks & Hheap).
        assert (fmt = JPEG) as ->.
        { destruct (with_suffix_jpg p p2 Ews) as (base & -> & _ & _).
          rewrite name_join in Hreg.
          change (base ++ ".jpg")%string with (base ++ String "." "jpg")%string in Hreg.
          rewrite splitext_ext_app in Hreg by reflexivity.
          destruct (all_dots base); cbv in Hreg; congruence. }
        auto 10.
Qed.

End Encoder.

(** ** What a computation may write *)

Section Footprint.

Context {Raster : Type} {lib : Pillow Raster}.

Variable P : Path -> Prop.

Lemma writes_within_refl (w : World Raster) : writes_within P w w.
Proof. split; [lia | auto]. Qed.

Lemma writes_within_same_files (w w' : World Raster) :
  files w' = files w -> ticks w' = ticks w -> writes_within P w w'.
Proof. intros Hf Ht. split; [lia | intros q; left; now rewrite Hf]. Qed.

Lemma writes_within_trans (w1 w2 w3 : World Raster) :
  writes_within P w1 w2 -> writes_within P w2 w3 -> writes_within P w1 w3.
Proof.
  intros [T12 H12] [T23 H23]. split; [lia|]. intros q.
  destruct (H23 q) as [E|(Hq & c & k & Hk & E)].
  - rewrite E. destruct (H12 q) as [E'|(Hq & c & k & Hk & E')]; [now left|].
    right. split; [exact Hq|]. exists c, k. auto.
  - right. split; [exact Hq|]. exists c, k. split; [lia | exact E].
Qed.

Lemma touches_ret {A} (a : A) : touches P (ret (Raster := Raster) a).
Proof. intros w. apply writes_within_refl. Qed.

Lemma touches_raise {A} (e : PyExc) : touches P (raise (Raster := Raster) (A := A) e).
Proof. intros w. apply writes_within_refl. Qed.

Lemma touches_lift {A} (r : PyExc + A) : touches P (lift (Raster := Raster) r).
Proof. intros w. apply writes_within_refl. Qed.

Lemma touches_bind {A B} (m : M Raster A) (k : A -> M Raster B) :
  touches P m -> (forall a, touches P (k a)) -> touches P (bind m k).
Proof.
  intros Hm Hk w. unfold bind. specialize (Hm w).
  destruct (m w) as [[e|a] w']; cbn in *; [exact Hm|].
  eapply writes_within_trans; [exact Hm | apply Hk].
Qed.

Lemma touches_try {A} (body : M Raster A) (handler : PyExc -> M Raster A) :
  touches P body -> (forall e, touches P (handler e)) -> touches P (try_except body handler).
Proof.
  intros Hm Hk w. unfold try_except. specialize (Hm w).
  destruct (body w) as [[e|a] w']; cbn in *; [|exact Hm].
  eapply writes_within_trans; [exact Hm | apply Hk].
Qed.

Lemma touches_deref (r : nat) : touches P (deref r).
Proof.
  intros w. unfold deref. destruct (heap w !! r); apply writes_within_refl.
Qed.

Lemma touches_new_object (img : Image Raster) : touches P (new_object img).
Proof. intros w. now apply writes_within_same_files. Qed.

Lemma touches_assign (r : nat) (img : Image Raster) : touches P (assign r img).
Proof. intros w. now apply writes_within_same_files. Qed.

Lemma touches_read_file (p : Path) : touches P (read_file p).
Proof.
  intros w. unfold read_file. destruct (files w !! p); apply writes_within_refl.
Qed.

Lemma touches_path_exists (p : Path) : touches P (path_exists p).
Proof. intros w. apply writes_within_refl. Qed.

Ltac footprint :=
  repeat first
    [ apply touches_ret | apply touches_raise | apply touches_lift
    | apply touches_deref | apply touches_new_object | apply touches_assign
    | apply touches_read_file | apply touches_path_exists
    | apply touches_bind; [|intros ?]
    | match goal with
      | |- touches _ (match ?x with _ => _ end) => destruct x
      end ].

Lemma touches_stat_mtime (p : Path) : touches P (stat_mtime p).
Proof. unfold stat_mtime. footprint. Qed.

Lemma touches_and_then (a b : M Raster bool) :
  touches P a -> touches P b -> touches P (and_then a b).
Proof. intros Ha Hb. unfold and_then. apply touches_bind; [exact Ha|]. intros []; [exact Hb|footprint]. Qed.

Lemma touches_is_fresh (in_path small_out large_out : Path) :
  touches P (is_fresh in_path small_out large_out).
Proof.
  unfold is_fresh.
  repeat first [ apply touches_and_then | apply touches_stat_mtime | footprint ].
Qed.

Lemma touches_Image_open (p : Path) : touches P (Image_open p).
Proof. unfold Image_open. footprint. Qed.

Lemma touches_exif_transpose (r : nat) : touches P (exif_transpose r).
Proof. unfold exif_transpose. footprint. Qed.

Lemma touches_resize_fit (r : nat) (n : Z) : touches P (resize_fit r n).
Proof. unfold resize_fit, Image_copy, thumbnail. footprint. Qed.

Lemma touches_convert_mode (r : nat) : touches P (convert_mode r).
Proof. unfold convert_mode, Image_convert. footprint. Qed.

Lemma touches_Image_save (r : nat) (p : Path) (kw : Kwargs) :
  P p -> touches P (Image_save r p kw).
Proof.
  intros Hp. unfold Image_save. apply touches_bind; [footprint|]. intros img.
  destruct (registered_extension _) as [fmt|]; [|footprint].
  intros w. cbn.
  assert (forall c, writes_within P w (written w p c)) as Hw.
  { intros c. split; [cbn; lia|]. intros q. cbn.
    destruct (decide (p = q)) as [<-|Hne].
    - right. split; [exact Hp|]. exists c, (ticks w). split; [lia|].
      apply lookup_insert_eq.
    - left. now apply lookup_insert_ne. }
  destruct (encode_error fmt kw img); [|apply Hw].
  destruct (files w !! p); [apply Hw | apply writes_within_refl].
Qed.

Lemma touches_save_image (r : nat) (p : Path) :
  P p -> (forall q, with_suffix p ".jpg" = Some q -> P q) ->
  touches P (save_image r p).
Proof.
  intros Hp Hq. unfold save_image.
  repeat first
    [ apply touches_convert_mode | apply touches_Image_save; [solve [auto]]
    | apply touches_bind; [|intros ?] | apply touches_ret | apply touches_raise
    | match goal with
      | |- touches _ (if ?x then _ else _) => destruct x
      | |- touches _ (match ?x with _ => _ end) => destruct x eqn:?
      end ].
Qed.

Lemma touches_process_image (in_path small_dir large_dir : Path) (max_small max_large : Z) :
  (forall q, parent q = small_dir -> P q) ->
  (forall q, parent q = large_dir -> P q) ->
  touches P (process_image in_path small_dir large_dir max_small max_large).
Proof.
  intros Hs Hl.
  assert (forall d r, (forall q, parent q = d -> P q) ->
            touches P (save_image r (out_path d in_path))) as Hsave.
  { intros d r Hd. apply touches_save_image.
    - apply Hd, parent_out_path.
    - intros q Hq. apply Hd. destruct (with_suffix_jpg _ _ Hq) as (base & -> & _ & _).
      now rewrite parent_join, parent_out_path. }
  unfold process_image, process_image_body.
  apply touches_try; [|intros e; footprint].
  apply touches_bind; [apply touches_Image_open|]. intros r0.
  apply touches_bind; [apply touches_exif_transpose|]. intros r1.
  apply touches_bind; [apply touches_is_fresh|]. intros [|]; [footprint|].
  apply touches_bind; [apply touches_resize_fit|]. intros r2.
  apply touches_bind; [apply touches_resize_fit|]. intros r3.
  apply touches_bind; [now apply Hsave|]. intros _.
  apply touches_bind; [now apply Hsave|]. intros _. footprint.
Qed.

End Footprint.

(** ** The per-file pipeline *)

Section Pipeline.

Context {Raster : Type} {lib : Pillow Raster}.

Lemma is_fresh_eq (w : World Raster) (in_path small_out large_out : Path) (f : File Raster) :
  files w !! in_path = Some f ->
  is_fresh in_path small_out large_out w
    = (inr (fresh_wrt f (files w) small_out large_out), w).
Proof.
  intros Hf. unfold is_fresh, and_then, stat_mtime, path_exists, read_file, bind, ret, fresh_wrt.
  destruct (files w !! small_out) as [s|] eqn:Es; [|reflexivity].
  cbn. rewrite ?Es, ?Hf. cbn.
  destruct (st_mtime f <=? st_mtime s); [|reflexivity].
  destruct (files w !! large_out) as [l|] eqn:El; [|reflexivity].
  cbn. rewrite ?El, ?Hf. reflexivity.
Qed.

(** Once the source has been opened and transposed, [process_image] is the
  freshness test followed, if it fails, by the writing of the derivatives. *)
Lemma process_image_body_eq (w : World Raster) (in_path small_dir large_dir : Path)
    (max_small max_large : Z) (f : File Raster) (i0 i1 : Image Raster) :
  files w !! in_path = Some f -> decode (content f) = inr i0 -> transpose i0 = inr i1 ->
  process_image_body in_path small_dir large_dir max_small max_large w =
    let w2 := with_heap w (heap w ++ [i0; i1]) in
    if fresh_wrt f (files w) (out_path small_dir in_path) (out_path large_dir in_path)
    then (inr (Skipped (name in_path)), w2)
    else write_derivatives in_path (out_path small_dir in_path) (out_path large_dir in_path)
           (S (length (heap w))) max_small max_large w2.
Proof.
  intros Hf Hd Ht.
  unfold process_image_body, Image_open, exif_transpose.
  unfold bind at 1. unfold bind at 1. unfold read_file. rewrite Hf.
  unfold bind at 1. unfold lift at 1. rewrite Hd.
  unfold new_object at 1. cbn [heap files ticks].
  unfold bind at 1. unfold bind at 1. unfold deref.
  cbn [heap]. rewrite list_lookup_middle by reflexivity.
  unfold bind at 1. unfold lift at 1. rewrite Ht.
  unfold new_object at 1. cbn [heap files ticks].
  unfold bind at 1.
  rewrite (is_fresh_eq _ in_path _ _ f) by exact Hf. cbn [files].
  rewrite <- app_assoc. cbn [app]. rewrite length_app. cbn [length].
  replace (length (heap w) + 1)%nat with (S (length (heap w))) by lia.
  unfold with_heap. cbn zeta.
  destruct (fresh_wrt f (files w) _ _); reflexivity.
Qed.

(** A source that cannot be opened or transposed gives an error outcome and
  leaves the files alone. *)
Lemma process_image_unreadable (w : World Raster) (in_path small_dir large_dir : Path)
    (max_small max_large : Z) :
  (forall f i0 i1,
     files w !! in_path = Some f -> decode (content f) = inr i0 -> transpose i0 <> inr i1) ->
  exists msg w',
    process_image in_path small_dir large_dir max_small max_large w
      = (inr (Error (name in_path) msg), w') /\
    files w' = files w /\ ticks w' = ticks w.
Proof.
  intros Hno.
  unfold process_image, try_except, process_image_body, Image_open, exif_transpose.
  unfold bind at 1. unfold bind at 1. unfold read_file.
  destruct (files w !! in_path) as [f|] eqn:Hf; [|eexists _, _; cbn; eauto].
  unfold bind at 1. unfold lift at 1.
  destruct (decode (content f)) as [e|i0] eqn:Hd; [eexists _, _; cbn; eauto|].
  unfold new_object at 1. cbn [heap files ticks].
  unfold bind at 1. unfold bind at 1. unfold deref.
  cbn [heap]. rewrite list_lookup_middle by reflexivity.
  unfold bind at 1. unfold lift at 1.
  destruct (transpose i0) as [e|i1] eqn:Ht; [eexists _, _; cbn; eauto|].
  exfalso. exact (Hno f i0 i1 eq_refl Hd Ht).
Qed.

(** The derivatives are written or an exception is raised: this part never
  reports a skipped file. *)
Lemma write_derivatives_result (w w' : World Raster) (in_path small_out large_out : Path)
    (im0 : nat) (max_small max_large : Z) (r : PyExc + Outcome) :
  write_derivatives in_path small_out large_out im0 max_small max_large w = (r, w') ->
  (exists e, r = inl e) \/ r = inr (Ok (name in_path) (name small_out) (name large_out)).
Proof.
  unfold write_derivatives, bind, ret.
  repeat match goal with
         | |- context [match ?x with _ => _ end] => destruct x as [[?|?] ?]
         end; intros [= <- <-]; eauto.
Qed.

Lemma write_derivatives_ok (w w' : World Raster) (in_path small_out large_out : Path)
    (im0 : nat) (max_small max_large : Z) (i1 : Image Raster) (o : Outcome) :
  heap w !! im0 = Some i1 ->
  write_derivatives in_path small_out large_out im0 max_small max_large w = (inr o, w') ->
  exists img_s img_l p_s p_l,
    fitted i1 max_small = inr img_s /\ fitted i1 max_large = inr img_l /\
    let ext_s := PyStr.lower (suffix small_out) in
    let ext_l := PyStr.lower (suffix large_out) in
    let fmt_s := branch_format ext_s in
    let fmt_l := branch_format ext_l in
    (if is_fallback ext_s then with_suffix small_out ".jpg" = Some p_s else p_s = small_out) /\
    (if is_fallback ext_l then with_suffix large_out ".jpg" = Some p_l else p_l = large_out) /\
    files w' =
      <[p_l := mkFile (Encoded fmt_l (branch_kwargs fmt_l) (saved_as fmt_l img_l))
                 (clock (S (ticks w)))]>
        (<[p_s := mkFile (Encoded fmt_s (branch_kwargs fmt_s) (saved_as fmt_s img_s))
                    (clock (ticks w))]> (files w)) /\
    ticks w' = S (S (ticks w)).
Proof.
  intros Hr. unfold write_derivatives.
  unfold bind at 1. rewrite (resize_fit_eq w im0 i1 max_small Hr).
  destruct (fitted i1 max_small) as [e|img_s] eqn:Es; [discriminate|].
  set (w1 := with_heap w (heap w ++ [img_s])).
  assert (heap w1 !! im0 = Some i1) as Hr1
    by (cbn; rewrite lookup_app_l; eauto using lookup_lt_Some).
  unfold bind at 1. rewrite (resize_fit_eq w1 im0 i1 max_large Hr1).
  destruct (fitted i1 max_large) as [e|img_l] eqn:El; [discriminate|].
  set (w2 := with_heap w1 (heap w1 ++ [img_l])).
  assert (heap w2 !! length (heap w) = Some img_s) as Hs.
  { cbn. rewrite lookup_app_l by (rewrite length_app; cbn; lia).
    now apply list_lookup_middle. }
  assert (heap w2 !! length (heap w1) = Some img_l) as Hl
    by (cbn; now apply list_lookup_middle).
  unfold bind at 1.
  destruct (save_image (length (heap w)) small_out w2) as [[e|p_s] w3] eqn:S1; [discriminate|].
  apply (save_image_ok w2 w3 _ img_s small_out p_s Hs) in S1.
  destruct S1 as (Hp_s & _ & _ & Hf3 & Ht3 & Hh3).
  unfold bind at 1.
  destruct (save_image (length (heap w1)) large_out w3) as [[e|p_l] w4] eqn:S2; [discriminate|].
  apply (save_image_ok w3 w4 _ img_l large_out p_l (Hh3 _ _ Hl)) in S2.
  destruct S2 as (Hp_l & _ & _ & Hf4 & Ht4 & _).
  unfold ret. intros [= <- <-].
  exists img_s, img_l, p_s, p_l. cbn zeta.
  split; [reflexivity|]. split; [reflexivity|].
  split; [exact Hp_s|]. split; [exact Hp_l|].
  split; [|rewrite Ht4, Ht3; reflexivity].
  rewrite Hf4, Hf3, Ht3. reflexivity.
Qed.

(** The three ways a call of [process_image] can end. *)
Lemma process_image_inv (w w' : World Raster) (in_path small_dir large_dir : Path)
    (max_small max_large : Z) (o : Outcome) :
  process_image in_path small_dir large_dir max_small max_large w = (inr o, w') ->
  (exists msg, o = Error (name in_path) msg) \/
  exists f i0 i1,
    files w !! in_path = Some f /\ decode (content f) = inr i0 /\ transpose i0 = inr i1 /\
    let small_out := out_path small_dir in_path in
    let large_out := out_path large_dir in_path in
    let w2 := with_heap w (heap w ++ [i0; i1]) in
    (fresh_wrt f (files w) small_out large_out = true /\
       o = Skipped (name in_path) /\ w' = w2) \/
    (fresh_wrt f (files w) small_out large_out = false /\
       o = Ok (name in_path) (name small_out) (name large_out) /\
       write_derivatives in_path small_out large_out (S (length (heap w)))
         max_small max_large w2 = (inr o, w')).
Proof.
  intros Hrun.
  assert ((exists f i0 i1, files w !! in_path = Some f /\ decode (content f) = inr i0 /\
             transpose i0 = inr i1) \/
          (forall f i0 i1, files w !! in_path = Some f -> decode (content f) = inr i0 ->
             transpose i0 <> inr i1)) as [(f & i0 & i1 & Hf & Hd & Ht)|Hno].
  { destruct (files w !! in_path) as [f|]; [|right; intros; congruence].
    destruct (decode (content f)) as [e|i0] eqn:Hd; [right; intros; congruence|].
    destruct (transpose i0) as [e|i1] eqn:Ht; [right; intros; congruence|].
    left. exists f, i0, i1. auto. }
  - unfold process_image, try_except in Hrun.
    rewrite (process_image_body_eq w _ _ _ _ _ f i0 i1 Hf Hd Ht) in Hrun. cbn zeta in Hrun.
    destruct (fresh_wrt f (files w) _ _) eqn:Hfresh.
    + right. exists f, i0, i1. cbn zeta. rewrite Hfresh.
      injection Hrun as <- <-. auto 10.
    + destruct (write_derivatives _ _ _ _ _ _ _) as [r w3] eqn:Ew.
      pose proof (write_derivatives_result _ _ _ _ _ _ _ _ _ Ew) as [[e ->]| ->].
      * left. injection Hrun as <- _. eauto.
      * right. exists f, i0, i1. cbn zeta. rewrite Hfresh.
        injection Hrun as <- <-. auto 10.
  - left. destruct (process_image_unreadable w in_path small_dir large_dir max_small max_large Hno)
      as (msg & w'' & E & _).
    rewrite E in Hrun. injection Hrun as <- _. eauto.
Qed.

End Pipeline.

(** ** Outcomes: skipping and errors *)

Section Outcomes.

Context {Raster : Type} {lib : Pillow Raster}.

Lemma settled_skipped (w : World Raster) (in_path small_dir large_dir : Path)
    (max_small max_large : Z) :
  settled (files w) small_dir large_dir in_path ->
  exists w',
    process_image in_path small_dir large_dir max_small max_large w
      = (inr (Skipped (name in_path)), w') /\
    files w' = files w /\ ticks w' = ticks w.
Proof.
  intros (f & i0 & i1 & Hf & Hd & Ht & Hfresh).
  unfold process_image, try_except.
  rewrite (process_image_body_eq w _ _ _ _ _ f i0 i1 Hf Hd Ht). cbn zeta.
  rewrite Hfresh. eexists. split; [reflexivity|]. split; reflexivity.
Qed.

Lemma fresh_wrt_true (f s l : File Raster) (fs : gmap Path (File Raster)) (ps pl : Path) :
  fs !! ps = Some s -> fs !! pl = Some l ->
  st_mtime f <= st_mtime s -> st_mtime f <= st_mtime l ->
  fresh_wrt f fs ps pl = true.
Proof.
  intros Hs Hl Ls Ll. unfold fresh_wrt. rewrite Hs, Hl.
  apply andb_true_iff. split; now apply Z.leb_le.
Qed.

(** C1 (amended): a source file that opens and transposes without error,
  and whose two computed output paths both exist with a modification time
  at least the source's (equality included), gets a skipped outcome. *)
Theorem fresh_source_is_skipped (w : World Raster) (in_path small_dir large_dir : Path)
    (max_small max_large : Z) (f s l : File Raster) (i0 i1 : Image Raster) :
  files w !! in_path = Some f ->
  decode (content f) = inr i0 -> transpose i0 = inr i1 ->
  files w !! out_path small_dir in_path = Some s ->
  files w !! out_path large_dir in_path = Some l ->
  st_mtime f <= st_mtime s -> st_mtime f <= st_mtime l ->
  exists w',
    process_image in_path small_dir large_dir max_small max_large w
      = (inr (Skipped (name in_path)), w').
Proof.
  intros Hf Hd Ht Hs Hl Ls Ll.
  destruct (settled_skipped w in_path small_dir large_dir max_small max_large)
    as (w' & E & _).
  - exists f, i0, i1. eauto using fresh_wrt_true.
  - eauto.
Qed.

(** C10: a call of [process_image] that returns a skipped outcome has
  written nothing: the files, with their contents and times, are as they
  were, and no write has been counted. *)
Theorem skipped_writes_nothing (w w' : World Raster) (in_path small_dir large_dir : Path)
    (max_small max_large : Z) (src : string) :
  process_image in_path small_dir large_dir max_small max_large w = (inr (Skipped src), w') ->
  files w' = files w /\ ticks w' = ticks w.
Proof.
  intros Hrun.
  destruct (files w !! in_path) as [f|] eqn:Hf.
  2: { destruct (process_image_unreadable w in_path small_dir large_dir max_small max_large)
         as (msg & w'' & E & _); [intros; congruence|]. congruence. }
  destruct (decode (content f)) as [e|i0] eqn:Hd.
  { destruct (process_image_unreadable w in_path small_dir large_dir max_small max_large)
      as (msg & w'' & E & _); [intros; congruence|]. congruence. }
  destruct (transpose i0) as [e|i1] eqn:Ht.
  { destruct (process_image_unreadable w in_path small_dir large_dir max_small max_large)
      as (msg & w'' & E & _); [intros; congruence|]. congruence. }
  unfold process_image, try_except in Hrun.
  rewrite (process_image_body_eq w _ _ _ _ _ f i0 i1 Hf Hd Ht) in Hrun. cbn zeta in Hrun.
  destruct (fresh_wrt f (files w) _ _).
  - injection Hrun as _ <-. split; reflexivity.
  - destruct (write_derivatives _ _ _ _ _ _ _) as [r w3] eqn:Ew.
    apply write_derivatives_result in Ew. destruct Ew as [[e ->]| ->]; discriminate.
Qed.

End Outcomes.

Lemma fresh_source_is_skipped_witness :
  exists w',
    process_image ["images"; "a.jpg"] ["images"; "small"] ["images"; "large"] 1200 2400
      Simple.second_visit = (inr (Skipped "a.jpg"), w').
Proof.
  apply (fresh_source_is_skipped Simple.second_visit
           ["images"; "a.jpg"] ["images"; "small"] ["images"; "large"] 1200 2400
           (mkFile (Encoded JPEG [] Simple.photo) 5)
           (mkFile (Encoded JPEG jpeg_kwargs Simple.photo) 5)
           (mkFile (Encoded JPEG jpeg_kwargs Simple.photo) 7)
           Simple.photo Simple.photo);
    solve [vm_compute; reflexivity | vm_compute; discriminate].
Defined.

(** The unreadable [c.jpg] has both derivatives in place, each newer than
  the source, and still is reported as an error, not as skipped. *)
Lemma fresh_but_unreadable :
  let w := Simple.second_visit in
  let src := ["images"; "c.jpg"] in
  (exists f s l,
     files w !! src = Some f /\
     files w !! out_path ["images"; "small"] src = Some s /\
     files w !! out_path ["images"; "large"] src = Some l /\
     st_mtime f <= st_mtime s /\ st_mtime f <= st_mtime l) /\
  fst (process_image src ["images"; "small"] ["images"; "large"] 1200 2400 w)
    = inr (Error "c.jpg" "cannot identify image file").
Proof.
  split.
  - eexists _, _, _. repeat split; try (vm_compute; reflexivity); vm_compute; discriminate.
  - vm_compute. reflexivity.
Qed.

Lemma skipped_writes_nothing_witness :
  files (snd (process_image ["images"; "a.jpg"] ["images"; "small"] ["images"; "large"]
                1200 2400 Simple.second_visit)) = files Simple.second_visit /\
  ticks (snd (process_image ["images"; "a.jpg"] ["images"; "small"] ["images"; "large"]
                1200 2400 Simple.second_visit)) = ticks Simple.second_visit.
Proof.
  apply (skipped_writes_nothing Simple.second_visit _
           ["images"; "a.jpg"] ["images"; "small"] ["images"; "large"] 1200 2400 "a.jpg").
  vm_compute. reflexivity.
Defined.

(** ** The batch loop *)

Section Batch.

Context {Raster : Type} {lib : Pillow Raster}.





Lemma scan_returns (d : Path) (w : World Raster) :
  exists imgs, scan d w = (inr imgs, w).
Proof. unfold scan, bind, iterdir. eauto. Qed.


End Batch.

(** ** Output names and encodings *)

Section Names.

Context {Raster : Type} {lib : Pillow Raster}.

Import PyStr.

Lemma out_ext_lower (p : Path) : lower (out_ext p) = out_ext p.
Proof. destruct (out_ext_cases p) as [H|[H|[H|[H|[]]]]]; rewrite <- H; reflexivity. Qed.

Lemma out_ext_supported (p : Path) : is_fallback (out_ext p) = false.
Proof. destruct (out_ext_cases p) as [H|[H|[H|[H|[]]]]]; rewrite <- H; reflexivity. Qed.

Lemma out_ext_eq (p : Path) :
  out_ext p = if is_fallback (lower (suffix p)) then ".jpg"%string else lower (suffix p).
Proof.
  unfold out_ext, is_fallback.
  now destruct (mem (lower (suffix p)) [".jpg"; ".jpeg"; ".png"; ".webp"]).
Qed.

Lemma name_stem_suffix (p : Path) : name p = (stem p ++ suffix p)%string.
Proof.
  unfold stem, suffix. destruct (split_at_dot (name p)) as [i|].
  - symmetry. apply take_drop.
  - induction (name p) as [|c s IH]; [reflexivity|].
    change (String c s = String c (s ++ "")). now rewrite <- IH.
Qed.

(** What a call that reports [ok] has done: the source opened, both sizes
  were computed from the transposed image, and two files were written, the
  small one first, at the two computed paths, in the encoding of the
  computed extension. *)
Lemma process_image_ok (w w' : World Raster) (in_path small_dir large_dir : Path)
    (max_small max_large : Z) (src s l : string) :
  name in_path <> "" ->
  process_image in_path small_dir large_dir max_small max_large w = (inr (Ok src s l), w') ->
  let small_out := out_path small_dir in_path in
  let large_out := out_path large_dir in_path in
  let fmt := branch_format (out_ext in_path) in
  src = name in_path /\ s = name small_out /\ l = name large_out /\
  exists f i0 i1 img_s img_l,
    files w !! in_path = Some f /\ decode (content f) = inr i0 /\ transpose i0 = inr i1 /\
    fitted i1 max_small = inr img_s /\ fitted i1 max_large = inr img_l /\
    files w' =
      <[large_out := mkFile (Encoded fmt (branch_kwargs fmt) (saved_as fmt img_l))
                       (clock (S (ticks w)))]>
        (<[small_out := mkFile (Encoded fmt (branch_kwargs fmt) (saved_as fmt img_s))
                          (clock (ticks w))]> (files w)) /\
    ticks w' = S (S (ticks w)).
Proof.
  intros Hn Hrun. cbn zeta.
  apply process_image_inv in Hrun.
  destruct Hrun as [[msg E]|(f & i0 & i1 & Hf & Hd & Ht & [(_ & E & _)|(_ & E & Hw)])];
    try discriminate.
  injection E as -> -> ->. split; [reflexivity|]. split; [reflexivity|]. split; [reflexivity|].
  apply (write_derivatives_ok _ _ _ _ _ _ _ _ i1) in Hw.
  2: { cbn. rewrite lookup_app_r by lia.
       replace (S (length (heap w)) - length (heap w))%nat with 1%nat by lia. reflexivity. }
  destruct Hw as (img_s & img_l & p_s & p_l & Hs & Hl & Hw). cbn zeta in Hw.
  rewrite !suffix_out_path, !out_ext_lower, !out_ext_supported in Hw by exact Hn.
  destruct Hw as (-> & -> & Hfiles & Hticks).
  exists f, i0, i1, img_s, img_l. auto 10.
Qed.

Lemma lookup_two_writes (fs : gmap Path (File Raster)) (ps pl : Path) (a b : File Raster) :
  <[pl := b]> (<[ps := a]> fs) !! pl = Some b /\
  (<[pl := b]> (<[ps := a]> fs) !! ps = Some a \/ <[pl := b]> (<[ps := a]> fs) !! ps = Some b).
Proof.
  split; [apply lookup_insert_eq|].
  destruct (decide (pl = ps)) as [->|Hne].
  - right. apply lookup_insert_eq.
  - left. rewrite lookup_insert_ne by exact Hne. apply lookup_insert_eq.
Qed.

(** C5: [convert_mode] yields the normalised image, which for the modes P,
  LA, RGBA, CMYK, P;16, I;16 and L is an RGB image of the same size and
  for any other mode is the image itself.  A successful [save_image] has
  written the normalised image exactly when it encoded JPEG (the [.jpg]
  and [.jpeg] branches and the fallback); as PNG or WebP it has written
  the image as it was. *)
Theorem normalisation_only_for_jpeg :
  (forall (w : World Raster) (r : nat) (img : Image Raster),
     heap w !! r = Some img ->
     exists r' w',
       convert_mode r w = (inr r', w') /\ heap w' !! r' = Some (normalized img) /\
       files w' = files w) /\
  (forall img : Image Raster,
     In (mode img) ["P"; "LA"; "RGBA"; "CMYK"; "P;16"; "I;16"; "L"] ->
     mode (normalized img) = "RGB" /\
     width (normalized img) = width img /\ height (normalized img) = height img) /\
  (forall img : Image Raster,
     ~ In (mode img) ["P"; "LA"; "RGBA"; "CMYK"; "P;16"; "I;16"; "L"] ->
     normalized img = img) /\
  (forall (w w' : World Raster) (r : nat) (img : Image Raster) (p p' : Path),
     heap w !! r = Some img ->
     save_image r p w = (inr p', w') ->
     exists fmt img',
       registered_extension (lower (splitext_ext (name p'))) = Some fmt /\
       fmt = branch_format (lower (suffix p)) /\
       files w' !! p' = Some (mkFile (Encoded fmt (branch_kwargs fmt) img') (clock (ticks w))) /\
       ((fmt = JPEG /\ img' = normalized img) \/
        ((fmt = PNG \/ fmt = WEBP) /\ img' = img))).
Proof.
  split; [|split; [|split]].
  - intros w r img Hr.
    destruct (convert_mode_result w r img Hr) as (r' & h & E & Hh & _).
    exists r', (with_heap w h). auto.
  - intros img Hin. unfold normalized, needs_rgb.
    destruct Hin as [<-|[<-|[<-|[<-|[<-|[<-|[<-|[]]]]]]]]; cbn; auto.
  - intros img Hin. unfold normalized, needs_rgb.
    destruct (mem (mode img) _) eqn:Em.
    + exfalso. apply Hin. apply mem_In in Em. cbn in *. tauto.
    + destruct (String.eqb_spec (mode img) "L") as [E|E]; [|reflexivity].
      exfalso. apply Hin. rewrite E. cbn. tauto.
  - intros w w' r img p p' Hr Hs.
    destruct (save_image_ok w w' r img p p' Hr Hs) as (_ & Hreg & _ & Hfiles & _).
    eexists _, _. split; [exact Hreg|]. split; [reflexivity|].
    split; [rewrite Hfiles; apply lookup_insert_eq|].
    unfold branch_format.
    destruct (mem _ [".jpg"; ".jpeg"]); [left; auto|].
    destruct (String.eqb _ ".png"); [right; auto|].
    destruct (String.eqb _ ".webp"); [right; auto|]. left; auto.
Qed.

(** C4 (amended): when [process_image] reports [ok] for a named source
  file, both derivatives have been written, at the computed paths, whose
  extension is [.jpg] if the lower-cased input extension is not one of
  [.jpg], [.jpeg], [.png], [.webp], and is the lower-cased input extension
  otherwise.  A successful [save_image] returns the path it has written,
  and that path differs from the one it was given exactly when the
  fallback triggers. *)
Theorem derivative_extensions :
  (forall (w w' : World Raster) (in_path small_dir large_dir : Path)
          (max_small max_large : Z) (src s l : string),
     name in_path <> "" ->
     process_image in_path small_dir large_dir max_small max_large w
       = (inr (Ok src s l), w') ->
     let ext := lower (suffix in_path) in
     let small_out := out_path small_dir in_path in
     let large_out := out_path large_dir in_path in
     s = name small_out /\ l = name large_out /\
     (exists img t, files w' !! small_out =
        Some (mkFile (Encoded (branch_format (suffix small_out))
                        (branch_kwargs (branch_format (suffix small_out))) img) t)) /\
     (exists img t, files w' !! large_out =
        Some (mkFile (Encoded (branch_format (suffix large_out))
                        (branch_kwargs (branch_format (suffix large_out))) img) t)) /\
     (is_fallback ext = true ->
        suffix small_out = ".jpg" /\ suffix large_out = ".jpg") /\
     (is_fallback ext = false ->
        suffix small_out = ext /\ suffix large_out = ext)) /\
  (forall (w w' : World Raster) (r : nat) (img : Image Raster) (p p' : Path),
     heap w !! r = Some img ->
     save_image r p w = (inr p', w') ->
     (exists c, files w' !! p' = Some (mkFile c (clock (ticks w)))) /\
     (forall q, q <> p' -> files w' !! q = files w !! q) /\
     (p' <> p <-> is_fallback (lower (suffix p)) = true)).
Proof.
  split.
  - intros w w' in_path small_dir large_dir max_small max_large src s l Hn Hrun.
    cbn zeta.
    destruct (process_image_ok w w' _ _ _ _ _ _ _ _ Hn Hrun)
      as (_ & -> & -> & f & i0 & i1 & img_s & img_l & _ & _ & _ & _ & _ & Hfiles & _).
    rewrite !suffix_out_path by exact Hn.
    split; [reflexivity|]. split; [reflexivity|].
    rewrite Hfiles.
    match goal with |- context [<[?pl := ?b]> (<[?ps := ?a]> ?fs)] =>
      destruct (lookup_two_writes fs ps pl a b) as [Hl Hs]
    end.
    split; [destruct Hs as [Hs|Hs]; rewrite Hs; eauto|].
    split; [rewrite Hl; eauto|].
    rewrite out_ext_eq. split; intros ->; auto.
  - intros w w' r img p p' Hr Hs.
    destruct (save_image_ok w w' r img p p' Hr Hs) as (Hp & _ & _ & Hfiles & _).
    split; [rewrite Hfiles, lookup_insert_eq; eauto|].
    split; [intros q Hq; rewrite Hfiles; now apply lookup_insert_ne|].
    destruct (is_fallback (lower (suffix p))) eqn:Hf.
    + split; [reflexivity|]. intros _. now apply with_suffix_jpg_differs.
    + split; [congruence | discriminate].
Qed.

(** C8 (amended): for a named source file the stem of the small and of the
  large output path is the input's stem, and the output name is that stem
  followed by the lower-cased input extension if it is one of [.jpg],
  [.jpeg], [.png], [.webp], and by [.jpg] otherwise; so the output name
  is the input name whenever the input extension is one of these four as
  written.  A call that reports [ok] reports these two names and has
  written these two paths. *)
Theorem output_names_keep_stem (in_path small_dir large_dir : Path) :
  name in_path <> "" ->
  let ext := lower (suffix in_path) in
  let e := if is_fallback ext then ".jpg"%string else ext in
  let small_out := out_path small_dir in_path in
  let large_out := out_path large_dir in_path in
  stem small_out = stem in_path /\ stem large_out = stem in_path /\
  name small_out = (stem in_path ++ e)%string /\
  name large_out = (stem in_path ++ e)%string /\
  suffix small_out = e /\ suffix large_out = e /\
  (suffix in_path = e -> name small_out = name in_path /\ name large_out = name in_path) /\
  (forall (w w' : World Raster) (max_small max_large : Z) (src s l : string),
     process_image in_path small_dir large_dir max_small max_large w
       = (inr (Ok src s l), w') ->
     src = name in_path /\ s = name small_out /\ l = name large_out /\
     is_Some (files w' !! small_out) /\ is_Some (files w' !! large_out)).
Proof.
  intros Hn. cbn zeta.
  rewrite !stem_out_path, !suffix_out_path, !name_out_path by exact Hn.
  rewrite <- out_ext_eq.
  repeat (split; [reflexivity|]).
  split.
  - intros E. rewrite <- E, <- name_stem_suffix. auto.
  - intros w w' max_small max_large src s l Hrun.
    destruct (process_image_ok w w' _ _ _ _ _ _ _ _ Hn Hrun)
      as (-> & -> & -> & f & i0 & i1 & img_s & img_l & _ & _ & _ & _ & _ & Hfiles & _).
    rewrite !name_out_path.
    repeat (split; [reflexivity|]).
    rewrite Hfiles.
    match goal with |- context [<[?pl := ?b]> (<[?ps := ?a]> ?fs)] =>
      destruct (lookup_two_writes fs ps pl a b) as [Hl Hs]
    end.
    split; [destruct Hs as [Hs|Hs]; rewrite Hs; eauto | rewrite Hl; eauto].
Qed.

End Names.

Lemma normalisation_only_for_jpeg_witness :
  let w := Simple.loaded in
  let p := ["images"; "small"; "b.png"] in
  exists fmt img',
    registered_extension (PyStr.lower (PyStr.splitext_ext (name p))) = Some fmt /\
    fmt = branch_format (PyStr.lower (suffix p)) /\
    files (snd (save_image 1 p w)) !! p
      = Some (mkFile (Encoded fmt (branch_kwargs fmt) img') (clock (ticks w))) /\
    ((fmt = JPEG /\ img' = normalized Simple.icon) \/
     ((fmt = PNG \/ fmt = WEBP) /\ img' = Simple.icon)).
Proof.
  destruct (@normalisation_only_for_jpeg unit Simple.pillow) as (_ & _ & _ & H).
  apply (H Simple.loaded (snd (save_image 1 ["images"; "small"; "b.png"] Simple.loaded))
           1%nat Simple.icon ["images"; "small"; "b.png"] ["images"; "small"; "b.png"]);
    vm_compute; reflexivity.
Defined.

Lemma derivative_extensions_witness :
  let w := Simple.scans in
  let in_path := ["images"; "b.tiff"] in
  let w' := snd (process_image in_path ["images"; "small"] ["images"; "large"] 1200 2400 w) in
  let ext := PyStr.lower (suffix in_path) in
  let small_out := out_path ["images"; "small"] in_path in
  let large_out := out_path ["images"; "large"] in_path in
  "b.jpg"%string = name small_out /\ "b.jpg"%string = name large_out /\
  (exists img t, files w' !! small_out =
     Some (mkFile (Encoded (branch_format (suffix small_out))
                     (branch_kwargs (branch_format (suffix small_out))) img) t)) /\
  (exists img t, files w' !! large_out =
     Some (mkFile (Encoded (branch_format (suffix large_out))
                     (branch_kwargs (branch_format (suffix large_out))) img) t)) /\
  (is_fallback ext = true -> suffix small_out = ".jpg"%string /\ suffix large_out = ".jpg"%string) /\
  (is_fallback ext = false -> suffix small_out = ext /\ suffix large_out = ext).
Proof.
  destruct (@derivative_extensions unit Simple.pillow) as [H _].
  apply (H Simple.scans _ ["images"; "b.tiff"] ["images"; "small"] ["images"; "large"]
           1200 2400 "b.tiff"%string).
  - cbv. discriminate.
  - vm_compute. reflexivity.
Defined.

(** [A.JPG] has a supported extension, and its derivatives are written as
  [A.jpg]: the output extension is not the input extension. *)
Lemma upper_case_extension_is_lowered :
  let in_path := ["images"; "A.JPG"] in
  let small_out := out_path ["images"; "small"] in_path in
  let large_out := out_path ["images"; "large"] in_path in
  is_fallback (PyStr.lower (suffix in_path)) = false /\
  fst (process_image in_path ["images"; "small"] ["images"; "large"] 1200 2400 Simple.shouting)
    = inr (Ok "A.JPG" "A.jpg" "A.jpg") /\
  suffix in_path = ".JPG"%string /\
  suffix small_out = ".jpg"%string /\ suffix large_out = ".jpg"%string /\
  suffix small_out <> suffix in_path /\ suffix large_out <> suffix in_path.
Proof.
  cbn zeta. repeat split; try (vm_compute; reflexivity); vm_compute; discriminate.
Qed.

Lemma output_names_keep_stem_witness :
  let in_path := ["images"; "b.tiff"] in
  let small_out := out_path ["images"; "small"] in_path in
  let large_out := out_path ["images"; "large"] in_path in
  stem small_out = "b"%string /\ stem large_out = "b"%string /\
  name small_out = "b.jpg"%string /\ name large_out = "b.jpg"%string.
Proof.
  destruct (output_names_keep_stem (Raster := unit) (lib := Simple.pillow)
              ["images"; "b.tiff"] ["images"; "small"] ["images"; "large"])
    as (H1 & H2 & H3 & H4 & _).
  - cbv. discriminate.
  - cbn zeta. repeat split; assumption.
Defined.

(** [IMG.PNG] is in a format that can be written as it is, and still the
  derivatives are named [IMG.png]: the extension differs from the input's
  although the format is supported. *)
Lemma supported_extension_changes_case :
  let in_path := ["images"; "IMG.PNG"] in
  let small_out := out_path ["images"; "small"] in_path in
  let large_out := out_path ["images"; "large"] in_path in
  is_fallback (PyStr.lower (suffix in_path)) = false /\
  fst (process_image in_path ["images"; "small"] ["images"; "large"] 1200 2400 Simple.shouting)
    = inr (Ok "IMG.PNG" "IMG.png" "IMG.png") /\
  stem small_out = stem in_path /\ stem large_out = stem in_path /\
  suffix small_out <> suffix in_path /\ suffix large_out <> suffix in_path /\
  suffix small_out <> ".jpg"%string /\
  name small_out <> name in_path /\ name large_out <> name in_path.
Proof.
  cbn zeta. repeat split; try (vm_compute; reflexivity); vm_compute; discriminate.
Qed.

(** ** Running the tool twice *)

Section Runs.

Context {Raster : Type} {lib : Pillow Raster}.

Variables small_dir large_dir : Path.

Lemma scan_eq (d : Path) (w : World Raster) :
  scan d w =
    (inr (List.filter
            (fun p => match files w !! p with Some _ => true | None => false end && is_image p)
            (List.filter (fun p => bool_decide (p <> [] /\ parent p = d))
               (map fst (map_to_list (files w))))), w).
Proof. reflexivity. Qed.

Lemma In_scan (d : Path) (w : World Raster) (imgs : list Path) (p : Path) :
  scan d w = (inr imgs, w) ->
  In p imgs <->
  is_Some (files w !! p) /\ p <> [] /\ parent p = d /\ is_image p = true.
Proof.
  rewrite scan_eq. intros [= <-].
  rewrite !filter_In, in_map_iff, andb_true_iff, bool_decide_eq_true.
  split.
  - intros [[((q & v) & <- & Hin) [Hne Hpar]] [Hfile Him]].
    apply list_elem_of_In, elem_of_map_to_list in Hin. cbn in *. eauto.
  - intros ([v Hv] & Hne & Hpar & Him). rewrite Hv. repeat split; auto.
    exists (p, v). split; [reflexivity|].
    now apply list_elem_of_In, elem_of_map_to_list.
Qed.

Lemma NoDup_scan (d : Path) (w : World Raster) (imgs : list Path) :
  scan d w = (inr imgs, w) -> List.NoDup imgs.
Proof.
  rewrite scan_eq. intros [= <-].
  do 2 apply List.NoDup_filter. apply NoDup_ListNoDup.
  exact (NoDup_fst_map_to_list (files w)).
Qed.

Lemma is_image_named (p : Path) : is_image p = true -> name p <> "".
Proof.
  unfold is_image, suffix. intros Him Hn. rewrite Hn in Him. discriminate.
Qed.

(** Writes to the output directories keep a settled source settled, as long
  as each of them is stamped no earlier than the source. *)
Lemma settled_preserved (w w' : World Raster) (p : Path) :
  writes_within (in_outputs small_dir large_dir) w w' ->
  ~ in_outputs small_dir large_dir p ->
  (forall f k, files w !! p = Some f -> (ticks w <= k)%nat -> st_mtime f <= clock k) ->
  settled (files w) small_dir large_dir p ->
  settled (files w') small_dir large_dir p.
Proof.
  intros [_ Hw] Hp Hclock (f & i0 & i1 & Hf & Hd & Ht & Hfresh).
  exists f, i0, i1.
  assert (files w' !! p = Some f) as Hf'.
  { destruct (Hw p) as [E|[Hout _]]; [congruence | contradiction]. }
  split; [exact Hf'|]. split; [exact Hd|]. split; [exact Ht|].
  unfold fresh_wrt in *.
  assert (forall q, (exists s, files w !! q = Some s /\ st_mtime f <= st_mtime s) ->
                    exists s, files w' !! q = Some s /\ st_mtime f <= st_mtime s) as Hkeep.
  { intros q (s & Hs & Hle). destruct (Hw q) as [E|(_ & c & k & Hk & E)].
    - exists s. split; [congruence | exact Hle].
    - eexists. split; [exact E|]. cbn. eauto. }
  destruct (files w !! out_path small_dir p) as [s|] eqn:Es; [|discriminate].
  apply andb_true_iff in Hfresh as [Hs Hl]. apply Z.leb_le in Hs.
  destruct (files w !! out_path large_dir p) as [l|] eqn:El; [|discriminate].
  apply Z.leb_le in Hl.
  destruct (Hkeep (out_path small_dir p)) as (s' & -> & Hs'); [eauto|].
  destruct (Hkeep (out_path large_dir p)) as (l' & -> & Hl'); [eauto|].
  apply andb_true_iff. split; now apply Z.leb_le.
Qed.

(** A call that does not report an error leaves its source settled. *)
Lemma settled_after (w w' : World Raster) (p : Path) (max_small max_large : Z) (o : Outcome) :
  process_image p small_dir large_dir max_small max_large w = (inr o, w') ->
  kind o <> "error" ->
  name p <> "" -> ~ in_outputs small_dir large_dir p ->
  (forall f k, files w !! p = Some f -> (ticks w <= k)%nat -> st_mtime f <= clock k) ->
  settled (files w') small_dir large_dir p.
Proof.
  intros Hrun Hkind Hn Hp Hclock.
  pose proof Hrun as Hinv. apply process_image_inv in Hinv.
  destruct Hinv as [[msg ->]|(f & i0 & i1 & Hf & Hd & Ht & [(Hfresh & -> & ->)|(_ & -> & _)])].
  - now contradiction Hkind.
  - exists f, i0, i1. auto.
  - destruct (process_image_ok w w' _ _ _ _ _ _ _ _ Hn Hrun)
      as (_ & _ & _ & f' & j0 & j1 & img_s & img_l & Hf' & Hd' & Ht' & _ & _ & Hfiles & _).
    exists f', j0, j1.
    assert (p <> out_path small_dir p /\ p <> out_path large_dir p) as [Hps Hpl].
    { split; intros E; apply Hp; [left|right]; rewrite E at 1; apply parent_out_path. }
    split; [rewrite Hfiles, !lookup_insert_ne by auto; exact Hf'|].
    split; [exact Hd'|]. split; [exact Ht'|].
    unfold fresh_wrt. rewrite Hfiles.
    match goal with |- context [<[?pl := ?b]> (<[?ps := ?a]> ?fs)] =>
      destruct (lookup_two_writes fs ps pl a b) as [Hl Hs]
    end.
    rewrite Hl.
    destruct Hs as [Hs|Hs]; rewrite Hs; cbn [st_mtime]; apply andb_true_iff;
      split; apply Z.leb_le; (apply Hclock; [exact Hf' | lia]).
Qed.

(** The sources stay as they were, and stay no later than the clock. *)
Lemma source_kept (w w' : World Raster) (p : Path) :
  writes_within (in_outputs small_dir large_dir) w w' -> ~ in_outputs small_dir large_dir p -> files w' !! p = files w !! p.
Proof. intros [_ Hw] Hp. destruct (Hw p) as [E|[Hout _]]; [exact E | contradiction]. Qed.

(** The first run: every file whose outcome is not an error is settled in
  the world the loop ends in. *)
Lemma main_loop_settles (args : Args) (imgs : list Path) :
  arg_small args = small_dir -> arg_large args = large_dir ->
  forall (results : gmap string nat) (w w' : World Raster) outs res,
    main_loop args imgs results w = (inr (outs, res), w') ->
    (forall p, In p imgs -> name p <> "" /\ ~ in_outputs small_dir large_dir p) ->
    (forall p f k, In p imgs -> files w !! p = Some f -> (ticks w <= k)%nat ->
                   st_mtime f <= clock k) ->
    (forall o, In o outs -> kind o <> "error") ->
    writes_within (in_outputs small_dir large_dir) w w' /\
    forall p, In p imgs -> settled (files w') small_dir large_dir p.
Proof.
  intros Hsd Hld. induction imgs as [|p rest IH]; intros results w w' outs res Hloop Himgs Hclock Hok.
  - injection Hloop as _ _ <-. split; [apply writes_within_refl | intros p []].
  - cbn [main_loop] in Hloop. unfold bind at 1 in Hloop. rewrite Hsd, Hld in Hloop.
    destruct (process_image p small_dir large_dir _ _ w) as [[e|o] w1] eqn:Hrun; [discriminate|].
    unfold bind at 1 in Hloop.
    destruct (count results (kind o) w1) as [[e|results1] w1'] eqn:Hcount; [discriminate|].
    assert (w1' = w1) as ->.
    { unfold count in Hcount. destruct (results !! kind o); now injection Hcount. }
    unfold bind at 1 in Hloop.
    destruct (main_loop args rest results1 w1) as [[e|[outs' res']] w2] eqn:Hrest; [discriminate|].
    injection Hloop as <- <- <-. cbn [fst snd] in *.
    assert (writes_within (in_outputs small_dir large_dir) w w1) as Hw1.
    { pose proof (touches_process_image (in_outputs small_dir large_dir) p small_dir large_dir
                    (arg_max_small args) (arg_max_large args)) as Ht.
      specialize (Ht ltac:(intros q Hq; now left) ltac:(intros q Hq; now right) w).
      now rewrite Hrun in Ht. }
    destruct (IH results1 w1 w2 outs' res' Hrest) as [Hw2 Hsettled].
    { intros q Hq. apply Himgs. now right. }
    { intros q f k Hq Hf Hk.
      rewrite (source_kept w w1 q Hw1) in Hf by (apply Himgs; now right).
      apply (Hclock q f k); [now right | exact Hf |]. destruct Hw1. lia. }
    { intros o' Ho'. apply Hok. now right. }
    split; [eapply writes_within_trans; eauto|].
    intros q [<-|Hq]; [|now apply Hsettled].
    destruct (Himgs p ltac:(now left)) as [Hn Hp].
    apply (settled_preserved w1 w2 p Hw2 Hp).
    + intros f k Hf Hk. rewrite (source_kept w w1 p Hw1 Hp) in Hf.
      apply (Hclock p f k); [now left | exact Hf |]. destruct Hw1. lia.
    + apply (settled_after w w1 p _ _ o Hrun); auto.
      * apply Hok. now left.
      * intros f k. apply Hclock. now left.
Qed.

(** The second run: over settled sources the loop reports [skipped] for
  each of them and leaves the files alone. *)
Lemma main_loop_skips (args : Args) (imgs : list Path) :
  arg_small args = small_dir -> arg_large args = large_dir ->
  forall (results : gmap string nat) (w : World Raster),
    (forall k, In k ["ok"; "skipped"; "error"] -> is_Some (results !! k)) ->
    (forall p, In p imgs -> settled (files w) small_dir large_dir p) ->
    exists res w',
      main_loop args imgs results w = (inr (map (fun p => Skipped (name p)) imgs, res), w') /\
      files w' = files w /\ ticks w' = ticks w /\
      (forall k n, results !! k = Some n ->
                   res !! k = Some (n + tally k (map (fun p => Skipped (name p)) imgs))%nat).
Proof.
  intros Hsd Hld. induction imgs as [|p rest IH]; intros results w Hkeys Hsettled.
  - exists results, w. split; [reflexivity|]. split; [reflexivity|]. split; [reflexivity|].
    intros k n Hk. unfold tally. cbn. now rewrite Nat.add_0_r.
  - cbn [main_loop]. unfold bind at 1. rewrite Hsd, Hld.
    destruct (settled_skipped w p small_dir large_dir (arg_max_small args) (arg_max_large args))
      as (w1 & Hrun & Hfiles & Hticks); [apply Hsettled; now left|].
    rewrite Hrun. unfold bind at 1. unfold count. cbn [kind].
    destruct (Hkeys "skipped"%string) as [n Hn]; [cbn; auto|]. rewrite Hn. unfold ret at 1.
    destruct (IH (<["skipped"%string := S n]> results) w1) as (res & w2 & Hloop & Hf2 & Ht2 & Hcount).
    { intros k Hk. destruct (decide ("skipped"%string = k)) as [<-|Hne].
      - rewrite lookup_insert_eq. eauto.
      - rewrite lookup_insert_ne by exact Hne. auto. }
    { intros q Hq. rewrite Hfiles. apply Hsettled. now right. }
    unfold bind. rewrite Hloop. unfold ret. cbn [fst snd map].
    exists res, w2. split; [reflexivity|].
    split; [congruence|]. split; [congruence|].
    intros k m Hk. unfold tally. cbn [List.filter kind].
    destruct (String.eqb_spec "skipped" k) as [<-|Hne].
    + rewrite (Hcount "skipped"%string (S n)) by apply lookup_insert_eq.
      assert (m = n) as -> by congruence. cbn [length]. unfold tally. f_equal. lia.
    + rewrite (Hcount k m) by (rewrite lookup_insert_ne; auto). reflexivity.
Qed.

End Runs.

Section TwoRuns.

Context {Raster : Type} {lib : Pillow Raster}.

Lemma tally_skipped (k : string) (imgs : list Path) :
  tally k (map (fun p => Skipped (name p)) imgs)
    = if String.eqb "skipped" k then length imgs else 0%nat.
Proof.
  unfold tally. induction imgs as [|p rest IH]; cbn [map List.filter kind].
  - now destruct (String.eqb "skipped" k).
  - destruct (String.eqb "skipped" k); cbn [length]; now rewrite IH.
Qed.

(** C6 (amended): let the source directory differ from both output
  directories, let no source file be dated later than the time stamps
  given to the files written, and let the first run report no error
  outcome.  Then a second run scans the same files and reports [skipped]
  for every one of them, without writing anything. *)
Theorem second_run_skips_all (args : Args) (w w1 : World Raster)
    (outs1 : list Outcome) (res1 : gmap string nat) :
  arg_src args <> arg_small args -> arg_src args <> arg_large args ->
  (forall p f k, files w !! p = Some f -> parent p = arg_src args ->
                 (ticks w <= k)%nat -> st_mtime f <= clock k) ->
  main args w = (inr (outs1, res1), w1) ->
  (forall o, In o outs1 -> kind o <> "error") ->
  exists imgs1 imgs2 outs2 res2 w2,
    scan (arg_src args) w = (inr imgs1, w) /\
    scan (arg_src args) w1 = (inr imgs2, w1) /\
    imgs2 ≡ₚ imgs1 /\
    main args w1 = (inr (outs2, res2), w2) /\
    outs2 = map (fun p => Skipped (name p)) imgs2 /\
    res2 !! "skipped" = Some (length imgs2) /\
    res2 !! "ok" = Some 0%nat /\ res2 !! "error" = Some 0%nat /\
    files w2 = files w1.
Proof.
  intros Hsmall Hlarge Hclock Hmain Hok.
  destruct (scan_returns (arg_src args) w) as [imgs1 Hscan1].
  unfold main, bind in Hmain. rewrite Hscan1 in Hmain.
  assert (forall p, In p imgs1 ->
            name p <> "" /\ ~ in_outputs (arg_small args) (arg_large args) p) as Hsrc.
  { intros p Hp. apply (In_scan _ _ _ _ Hscan1) in Hp as (_ & _ & Hpar & Him).
    split; [now apply is_image_named|]. intros [E|E]; congruence. }
  destruct (main_loop_settles (arg_small args) (arg_large args) args imgs1 eq_refl eq_refl
              _ _ _ _ _ Hmain Hsrc) as [Hw Hsettled]; [|exact Hok|].
  { intros p f k Hp Hf Hk. apply (Hclock p f k Hf); [|exact Hk].
    now apply (In_scan _ _ _ _ Hscan1) in Hp. }
  destruct (scan_returns (arg_src args) w1) as [imgs2 Hscan2].
  assert (forall p, In p imgs2 <-> In p imgs1) as Hsame.
  { intros p. rewrite (In_scan _ _ _ _ Hscan1), (In_scan _ _ _ _ Hscan2).
    split; intros (Hfile & Hne & Hpar & Him); repeat split; auto.
    - rewrite <- (source_kept _ _ w w1 p Hw); [exact Hfile|]. intros [E|E]; congruence.
    - rewrite (source_kept _ _ w w1 p Hw); [exact Hfile|]. intros [E|E]; congruence. }
  destruct (main_loop_skips (arg_small args) (arg_large args) args imgs2 eq_refl eq_refl
              initial_results w1) as (res2 & w2 & Hloop & Hfiles & _ & Hcount).
  { intros k [<-|[<-|[<-|[]]]]; vm_compute; eauto. }
  { intros p Hp. apply Hsettled. now apply Hsame. }
  exists imgs1, imgs2, (map (fun p => Skipped (name p)) imgs2), res2, w2.
  split; [exact Hscan1|]. split; [exact Hscan2|].
  split.
  { apply NoDup_Permutation.
    - apply NoDup_ListNoDup. eapply NoDup_scan; eauto.
    - apply NoDup_ListNoDup. eapply NoDup_scan; eauto.
    - intros p. rewrite !list_elem_of_In. apply Hsame. }
  split; [unfold main, bind; rewrite Hscan2; exact Hloop|].
  split; [reflexivity|].
  split; [rewrite (Hcount "skipped"%string 0%nat) by reflexivity; now rewrite tally_skipped|].
  split; [rewrite (Hcount "ok"%string 0%nat) by reflexivity; now rewrite tally_skipped|].
  split; [rewrite (Hcount "error"%string 0%nat) by reflexivity; now rewrite tally_skipped|].
  exact Hfiles.
Qed.

End TwoRuns.

Lemma second_run_skips_all_witness :
  exists imgs1 imgs2 outs2 res2 w2,
    scan ["images"] Simple.one_photo = (inr imgs1, Simple.one_photo) /\
    scan ["images"] (snd (main default_args Simple.one_photo))
      = (inr imgs2, snd (main default_args Simple.one_photo)) /\
    imgs2 ≡ₚ imgs1 /\
    main default_args (snd (main default_args Simple.one_photo)) = (inr (outs2, res2), w2) /\
    outs2 = map (fun p => Skipped (name p)) imgs2 /\
    res2 !! "skipped" = Some (length imgs2) /\
    res2 !! "ok" = Some 0%nat /\ res2 !! "error" = Some 0%nat /\
    files w2 = files (snd (main default_args Simple.one_photo)).
Proof.
  apply (second_run_skips_all default_args Simple.one_photo
           (snd (main default_args Simple.one_photo))
           [Ok "a.jpg" "a.jpg" "a.jpg"]
           (<["ok" := 1%nat]> initial_results)).
  - cbv. discriminate.
  - cbv. discriminate.
  - intros p f k Hf _ _.
    unfold Simple.one_photo, Simple.world in Hf. cbn [files list_to_map foldr] in Hf.
    apply lookup_insert_Some in Hf as [[_ <-]|[_ Hf]].
    + cbn. lia.
    + rewrite lookup_empty in Hf. discriminate.
  - vm_compute. reflexivity.
  - intros o [<-|[]]. cbv. discriminate.
Defined.

(** Four directories on which a second run does not report [skipped] for
  every file although nothing was changed in between: an unreadable file is
  an error both times; a file dated after the clock is processed both
  times; with the large derivatives written into the source directory the
  source is its own, newer, derivative; and with the small derivatives
  written there a clock that steps back makes the new file look stale. *)
Lemma second_run_not_all_skipped :
  (Simple.printed (main default_args Simple.only_corrupt)
     = Some [Error "c.jpg" "cannot identify image file"] /\
   Simple.printed (main default_args (snd (main default_args Simple.only_corrupt)))
     = Some [Error "c.jpg" "cannot identify image file"]) /\
  (Simple.printed (main default_args Simple.from_the_future)
     = Some [Ok "a.jpg" "a.jpg" "a.jpg"] /\
   Simple.printed (main default_args (snd (main default_args Simple.from_the_future)))
     = Some [Ok "a.jpg" "a.jpg" "a.jpg"]) /\
  (Simple.printed (main Simple.large_in_src Simple.one_photo)
     = Some [Ok "a.jpg" "a.jpg" "a.jpg"] /\
   Simple.printed (main Simple.large_in_src (snd (main Simple.large_in_src Simple.one_photo)))
     = Some [Ok "a.jpg" "a.jpg" "a.jpg"]) /\
  (Simple.printed (main (lib := Simple.stepping_back) Simple.small_in_src Simple.scans)
     = Some [Ok "b.tiff" "b.jpg" "b.jpg"] /\
   In (Ok "b.jpg" "b.jpg" "b.jpg")
     (default []
        (Simple.printed
           (main (lib := Simple.stepping_back) Simple.small_in_src
              (snd (main (lib := Simple.stepping_back) Simple.small_in_src Simple.scans)))))).
Proof.
  split; [split; vm_compute; reflexivity|].
  split; [split; vm_compute; reflexivity|].
  split; [split; vm_compute; reflexivity|].
  split; [vm_compute; reflexivity|].
  vm_compute. tauto.
Qed.

(** ** The script on concrete inputs *)

Example suffix_upper : suffix ["images"; "IMG_0001.JPG"] = ".JPG"%string.
Proof. reflexivity. Qed.

Example stem_two_dots : stem ["images"; "a.b.tiff"] = "a.b"%string.
Proof. reflexivity. Qed.

Example suffix_hidden : suffix ["images"; ".hidden"] = ""%string.
Proof. reflexivity. Qed.

Example with_suffix_tiff :
  with_suffix ["images"; "small"; "scan.tiff"] ".jpg" = Some ["images"; "small"; "scan.jpg"].
Proof. reflexivity. Qed.

Example thumbnail_size_wide : preserve_aspect_ratio 3000 2000 1200 1200 = inr (Some (1200, 800)).
Proof. vm_compute. reflexivity. Qed.

Example thumbnail_size_thin : preserve_aspect_ratio 1000 3 100 100 = inr (Some (100, 1)).
Proof. vm_compute. reflexivity. Qed.

Example thumbnail_size_zero_box : preserve_aspect_ratio 3000 2000 0 0 = inl ZeroDivisionError.
Proof. vm_compute. reflexivity. Qed.

(** The two-file scenario: both files are processed, the photograph is
  fitted into 1200 and 2400 pixels, the small PNG keeps its size and its
  alpha channel, and a second run skips both. *)
Example scenario_first_run :
  let r := main default_args Simple.scenario in
  Permutation (default [] (Simple.printed r))
    [Ok "a.jpg" "a.jpg" "a.jpg"; Ok "b.png" "b.png" "b.png"] /\
  Simple.shape (snd r) ["images"; "small"; "a.jpg"] = Some (JPEG, "RGB"%string, 1200, 800) /\
  Simple.shape (snd r) ["images"; "large"; "a.jpg"] = Some (JPEG, "RGB"%string, 2400, 1600) /\
  Simple.shape (snd r) ["images"; "small"; "b.png"] = Some (PNG, "RGBA"%string, 500, 300) /\
  Simple.shape (snd r) ["images"; "large"; "b.png"] = Some (PNG, "RGBA"%string, 500, 300) /\
  match fst r with
  | inr (_, results) => results !! "ok"%string
  | inl _ => None
  end = Some 2%nat.
Proof.
  cbn zeta.
  split; [vm_compute; first [reflexivity | apply perm_swap]|].
  split; [vm_compute; reflexivity|]. split; [vm_compute; reflexivity|].
  split; [vm_compute; reflexivity|]. split; vm_compute; reflexivity.
Qed.

(** * Further properties of the script *)

(** ** The scanner *)

Section Scanner.

Import PyStr.

Lemma lower_char_dot (c : ascii) : Ascii.eqb (lower_char c) "." = Ascii.eqb c ".".
Proof. destruct c as [[] [] [] [] [] [] [] []]; reflexivity. Qed.

Lemma lower_char_idem (c : ascii) : lower_char (lower_char c) = lower_char c.
Proof. destruct c as [[] [] [] [] [] [] [] []]; reflexivity. Qed.

Lemma lower_idem (s : string) : lower (lower s) = lower s.
Proof. induction s as [|c s IH]; simpl; [reflexivity|]. now rewrite lower_char_idem, IH. Qed.

Lemma length_lower (s : string) : String.length (lower s) = String.length s.
Proof. induction s as [|c s IH]; simpl; [reflexivity | now rewrite IH]. Qed.

Lemma rfind_dot_lower (s : string) : rfind_dot (lower s) = rfind_dot s.
Proof.
  induction s as [|c s IH]; simpl; [reflexivity|].
  now rewrite IH, lower_char_dot.
Qed.

Lemma drop_lower (i : nat) (s : string) : drop i (lower s) = lower (drop i s).
Proof. revert s. induction i as [|i IH]; intros [|c s]; simpl; auto. Qed.

Lemma suffix_lower (d d' : Path) (n : string) :
  suffix (d' </> lower n) = lower (suffix (d </> n)).
Proof.
  unfold suffix, split_at_dot. rewrite !name_join, rfind_dot_lower, length_lower.
  destruct (rfind_dot n) as [i|]; [|reflexivity].
  destruct ((0 <? i)%nat && (i <? String.length n - 1)%nat); [|reflexivity].
  apply drop_lower.
Qed.

(** X1: whether a file counts as an image depends neither on its directory
  nor on the letter case of its name; and a name without a dot, or whose
  only dot is its first character (a hidden file such as [.jpg]), is not
  an image. *)
Theorem is_image_by_extension :
  (forall (d d' : Path) (n : string), is_image (d </> n) = is_image (d' </> lower n)) /\
  (forall (d : Path) (n : string), rfind_dot n = None -> is_image (d </> n) = false) /\
  (forall (d : Path) (t : string), rfind_dot t = None -> is_image (d </> String "." t) = false).
Proof.
  split; [|split].
  - intros d d' n. unfold is_image.
    now rewrite (suffix_lower d d' n), lower_idem.
  - intros d n Hn. unfold is_image, suffix, split_at_dot.
    now rewrite name_join, Hn.
  - intros d t Ht. unfold is_image, suffix, split_at_dot.
    rewrite name_join. simpl. now rewrite Ht.
Qed.

End Scanner.

Section Writes.

Context {Raster : Type} {lib : Pillow Raster}.

Lemma writes_within_spec (P : Path -> Prop) (w w' : World Raster) :
  writes_within P w w' ->
  (forall q, ~ P q -> files w' !! q = files w !! q) /\
  (forall q, is_Some (files w !! q) -> is_Some (files w' !! q)).
Proof.
  intros [_ Hw]. split; intros q Hq.
  - destruct (Hw q) as [E|[HP _]]; [exact E | contradiction].
  - destruct (Hw q) as [E|(_ & c & k & _ & E)]; rewrite E; eauto.
Qed.

(** X3: whatever its outcome, a call of [process_image] leaves every path
  that does not lie directly in one of the two output directories exactly
  as it was (content and time), and removes no file at all. *)
Theorem process_image_writes_only_outputs (w : World Raster)
    (in_path small_dir large_dir : Path) (max_small max_large : Z) :
  let w' := snd (process_image in_path small_dir large_dir max_small max_large w) in
  (forall q, parent q <> small_dir -> parent q <> large_dir ->
             files w' !! q = files w !! q) /\
  (forall q, is_Some (files w !! q) -> is_Some (files w' !! q)).
Proof.
  cbn zeta.
  pose proof (touches_process_image (in_outputs small_dir large_dir)
                in_path small_dir large_dir max_small max_large) as Ht.
  specialize (Ht ltac:(intros q Hq; now left) ltac:(intros q Hq; now right) w).
  apply writes_within_spec in Ht as [Hkeep Hsome].
  split; [|exact Hsome].
  intros q Hs Hl. apply Hkeep. intros [E|E]; contradiction.
Qed.

Lemma touches_count (P : Path -> Prop) (results : gmap string nat) (k : string) :
  touches P (count (Raster := Raster) results k).
Proof.
  unfold count. destruct (results !! k); [apply touches_ret | apply touches_raise].
Qed.

Lemma touches_main_loop (P : Path -> Prop) (args : Args) (imgs : list Path) :
  (forall q, parent q = arg_small args -> P q) ->
  (forall q, parent q = arg_large args -> P q) ->
  forall results, touches P (main_loop args imgs results).
Proof.
  intros Hs Hl. induction imgs as [|p rest IH]; intros results; cbn [main_loop].
  - apply touches_ret.
  - apply touches_bind; [now apply touches_process_image|]. intros o.
    apply touches_bind; [apply touches_count|]. intros results'.
    apply touches_bind; [apply IH|]. intros r. apply touches_ret.
Qed.

Lemma touches_scan (P : Path -> Prop) (d : Path) : touches P (scan d).
Proof.
  intros w. destruct (scan_returns d w) as [imgs ->]. apply writes_within_refl.
Qed.

(** X4: a whole run of [main] never changes a file that does not lie
  directly in the small or the large directory, and never removes a file:
  with a source directory other than these two, every source file is
  after the run what it was before. *)
Theorem main_writes_only_outputs (args : Args) (w : World Raster) :
  let w' := snd (main args w) in
  (forall q, parent q <> arg_small args -> parent q <> arg_large args ->
             files w' !! q = files w !! q) /\
  (forall q, is_Some (files w !! q) -> is_Some (files w' !! q)).
Proof.
  cbn zeta.
  assert (touches (in_outputs (arg_small args) (arg_large args)) (main args)) as Ht.
  { unfold main. apply touches_bind; [apply touches_scan|]. intros imgs.
    apply touches_main_loop; intros q Hq; [now left | now right]. }
  specialize (Ht w). apply writes_within_spec in Ht as [Hkeep Hsome].
  split; [|exact Hsome].
  intros q Hs Hl. apply Hkeep. intros [E|E]; contradiction.
Qed.

End Writes.

(** ** Errors and freshness *)

Section Freshness.

Context {Raster : Type} {lib : Pillow Raster}.

(** X5: a source that is missing, that cannot be decoded or that cannot be
  transposed is reported as an error carrying the message of exactly that
  failure, and nothing is written: the freshness test and the output
  files are not even looked at. *)
Theorem unreadable_source_is_error (w : World Raster)
    (in_path small_dir large_dir : Path) (max_small max_large : Z) :
  let run := process_image in_path small_dir large_dir max_small max_large w in
  (files w !! in_path = None ->
     fst run = inr (Error (name in_path) (exc_str (FileNotFoundError in_path))) /\
     snd run = w) /\
  (forall f e, files w !! in_path = Some f -> decode (content f) = inl e ->
     fst run = inr (Error (name in_path) (exc_str e)) /\ snd run = w) /\
  (forall f i0 e, files w !! in_path = Some f -> decode (content f) = inr i0 ->
     transpose i0 = inl e ->
     fst run = inr (Error (name in_path) (exc_str e)) /\
     files (snd run) = files w /\ ticks (snd run) = ticks w).
Proof.
  cbn zeta. split; [|split].
  - intros Hf.
    assert (process_image in_path small_dir large_dir max_small max_large w
              = (inr (Error (name in_path) (exc_str (FileNotFoundError in_path))), w)) as ->.
    { unfold process_image, try_except, process_image_body, Image_open.
      unfold bind at 1. unfold bind at 1. unfold read_file. now rewrite Hf. }
    split; reflexivity.
  - intros f e Hf Hd.
    assert (process_image in_path small_dir large_dir max_small max_large w
              = (inr (Error (name in_path) (exc_str e)), w)) as ->.
    { unfold process_image, try_except, process_image_body, Image_open.
      unfold bind at 1. unfold bind at 1. unfold read_file. rewrite Hf.
      unfold bind at 1. unfold lift at 1. now rewrite Hd. }
    split; reflexivity.
  - intros f i0 e Hf Hd Ht.
    assert (process_image in_path small_dir large_dir max_small max_large w
              = (inr (Error (name in_path) (exc_str e)), with_heap w (heap w ++ [i0]))) as ->.
    { unfold process_image, try_except, process_image_body, Image_open, exif_transpose.
      unfold bind at 1. unfold bind at 1. unfold read_file. rewrite Hf.
      unfold bind at 1. unfold lift at 1. rewrite Hd.
      unfold new_object at 1. cbn [heap files ticks].
      unfold bind at 1. unfold bind at 1. unfold deref.
      cbn [heap]. rewrite list_lookup_middle by reflexivity.
      unfold bind at 1. unfold lift at 1. now rewrite Ht. }
    cbn. auto.
Qed.

Lemma process_image_functional (w w1 w2 : World Raster) (in_path small_dir large_dir : Path)
    (max_small max_large : Z) (o1 o2 : Outcome) :
  process_image in_path small_dir large_dir max_small max_large w = (inr o1, w1) ->
  process_image in_path small_dir large_dir max_small max_large w = (inr o2, w2) ->
  o1 = o2.
Proof. congruence. Qed.

(** X6: a file is skipped only if it is fresh, and always if it is: the
  outcome of [process_image] is [skipped] exactly when the source opens
  and transposes and both derivatives exist with a modification time not
  before the source's.  A stale or missing derivative is never skipped. *)
Theorem skipped_iff_fresh (w w' : World Raster) (in_path small_dir large_dir : Path)
    (max_small max_large : Z) (o : Outcome) :
  process_image in_path small_dir large_dir max_small max_large w = (inr o, w') ->
  (kind o = "skipped" <->
   exists f s l i0 i1,
     files w !! in_path = Some f /\
     decode (content f) = inr i0 /\ transpose i0 = inr i1 /\
     files w !! out_path small_dir in_path = Some s /\
     files w !! out_path large_dir in_path = Some l /\
     st_mtime f <= st_mtime s /\ st_mtime f <= st_mtime l).
Proof.
  intros Hrun. split.
  - intros Hkind. apply process_image_inv in Hrun.
    destruct Hrun as [[msg ->]|(f & i0 & i1 & Hf & Hd & Ht & [(Hfresh & _ & _)|(_ & -> & _)])];
      try discriminate.
    unfold fresh_wrt in Hfresh.
    destruct (files w !! out_path small_dir in_path) as [s|]; [|discriminate].
    apply andb_true_iff in Hfresh as [Hs Hl]. apply Z.leb_le in Hs.
    destruct (files w !! out_path large_dir in_path) as [l|]; [|discriminate].
    apply Z.leb_le in Hl. exists f, s, l, i0, i1. auto 10.
  - intros (f & s & l & i0 & i1 & Hf & Hd & Ht & Hs & Hl & Ls & Ll).
    destruct (settled_skipped w in_path small_dir large_dir max_small max_large)
      as (w'' & E & _).
    { exists f, i0, i1. eauto using fresh_wrt_true. }
    rewrite (process_image_functional _ _ _ _ _ _ _ _ _ _ Hrun E). reflexivity.
Qed.

(** X7: processing a file twice in a row.  When a call does not report an
  error, the source lies outside the two output directories and is not
  dated later than the time stamps of the writes, an immediate second call
  on the same file reports [skipped] and writes nothing, whatever happened
  to other files. *)
Theorem process_image_twice (w w1 : World Raster) (in_path small_dir large_dir : Path)
    (max_small max_large : Z) (o : Outcome) :
  name in_path <> "" ->
  parent in_path <> small_dir -> parent in_path <> large_dir ->
  (forall f k, files w !! in_path = Some f -> (ticks w <= k)%nat -> st_mtime f <= clock k) ->
  process_image in_path small_dir large_dir max_small max_large w = (inr o, w1) ->
  kind o <> "error" ->
  exists w2,
    process_image in_path small_dir large_dir max_small max_large w1
      = (inr (Skipped (name in_path)), w2) /\
    files w2 = files w1 /\ ticks w2 = ticks w1.
Proof.
  intros Hn Hs Hl Hclock Hrun Hkind.
  apply settled_skipped.
  apply (settled_after small_dir large_dir w w1 in_path max_small max_large o); auto.
  intros [E|E]; contradiction.
Qed.

End Freshness.

Lemma skipped_iff_fresh_witness :
  kind (Skipped "a.jpg") = "skipped"%string <->
  exists f s l i0 i1,
    files Simple.second_visit !! ["images"; "a.jpg"] = Some f /\
    decode (content f) = inr i0 /\ transpose i0 = inr i1 /\
    files Simple.second_visit !! out_path ["images"; "small"] ["images"; "a.jpg"] = Some s /\
    files Simple.second_visit !! out_path ["images"; "large"] ["images"; "a.jpg"] = Some l /\
    st_mtime f <= st_mtime s /\ st_mtime f <= st_mtime l.
Proof.
  apply (skipped_iff_fresh Simple.second_visit
           (snd (process_image ["images"; "a.jpg"] ["images"; "small"] ["images"; "large"]
                   1200 2400 Simple.second_visit))
           ["images"; "a.jpg"] ["images"; "small"] ["images"; "large"] 1200 2400).
  vm_compute. reflexivity.
Defined.

Lemma process_image_twice_witness :
  let run := process_image ["images"; "a.jpg"] ["images"; "small"] ["images"; "large"]
               1200 2400 in
  exists w2,
    run (snd (run Simple.one_photo)) = (inr (Skipped "a.jpg"), w2) /\
    files w2 = files (snd (run Simple.one_photo)) /\
    ticks w2 = ticks (snd (run Simple.one_photo)).
Proof.
  apply (process_image_twice Simple.one_photo _ ["images"; "a.jpg"]
           ["images"; "small"] ["images"; "large"] 1200 2400 (Ok "a.jpg" "a.jpg" "a.jpg")).
  - cbv. discriminate.
  - cbv. discriminate.
  - cbv. discriminate.
  - intros f k Hf _.
    unfold Simple.one_photo, Simple.world in Hf. cbn [files list_to_map foldr] in Hf.
    apply lookup_insert_Some in Hf as [[_ <-]|[_ Hf]].
    + cbn. lia.
    + rewrite lookup_empty in Hf. discriminate.
  - vm_compute. reflexivity.
  - cbv. discriminate.
Defined.

(** ** More on the resizer *)

Section ResizerShape.

Context {Raster : Type} {lib : Pillow Raster}.

(** The image [thumbnail] leaves, for a positive box and a positive
  size: never larger than the source on either edge, never empty, of the
  same mode and the same orientation. *)
Lemma fitted_shape (img : Image Raster) (n : Z) :
  0 < n -> 0 < width img -> 0 < height img ->
  exists img',
    fitted img n = inr img' /\ mode img' = mode img /\
    1 <= width img' <= width img /\ 1 <= height img' <= height img /\
    width img' <= n /\ height img' <= n /\
    (width img <= height img -> width img' <= height img') /\
    (height img <= width img -> height img' <= width img') /\
    ((Z.max (width img) (height img) | n * Z.min (width img) (height img)) ->
     width img' * height img = height img' * width img).
Proof.
  intros Hn Hw Hh.
  destruct (Z_le_dec (width img) n) as [Hwn|Hwn];
    [destruct (Z_le_dec (height img) n) as [Hhn|Hhn]|].
  { exists img. rewrite fitted_fits by assumption. repeat split; try lia. }
  all: destruct (fitted_shrinks img n Hn Hw Hh)
         as (img' & E & Hm & Bw & Bh & Tall & Wide); [lia|];
       exists img'; split; [exact E|]; split; [exact Hm|];
       destruct (Z_le_dec (width img) (height img)) as [L|L].
  all: try (destruct (Tall L) as [Eh A]; rewrite Eh in *;
            assert (width img' <= width img) as Hle by nia;
            assert ((Z.max (width img) (height img) | n * Z.min (width img) (height img)) ->
                    width img' * height img = n * width img) as Hexact
              by (intros Hdiv; rewrite Z.max_r, Z.min_l in Hdiv by lia;
                  destruct Hdiv as [k Hk]; rewrite Hk in A;
                  assert (width img' = k) by nia; subst k; lia);
            assert (height img <= width img -> n <= width img') as Hsq
              by (intros Hsq; assert (height img = width img) as Eq by lia;
                  rewrite Eq in A; nia)).
  all: try (destruct (Wide ltac:(lia)) as [Ew A]; rewrite Ew in *;
            assert (height img' <= height img) as Hle by nia;
            assert ((Z.max (width img) (height img) | n * Z.min (width img) (height img)) ->
                    n * height img = height img' * width img) as Hexact
              by (intros Hdiv; rewrite Z.max_l, Z.min_r in Hdiv by lia;
                  destruct Hdiv as [k Hk]; rewrite Hk in A;
                  assert (height img' = k) by nia; subst k; lia)).
  all: repeat split; try lia; auto.
Qed.

Lemma resize_fit_result (w : World Raster) (r : nat) (img img' : Image Raster) (n : Z) :
  heap w !! r = Some img -> fitted img n = inr img' ->
  resize_fit r n w = (inr (length (heap w)), with_heap w (heap w ++ [img'])) /\
  heap (with_heap w (heap w ++ [img'])) !! length (heap w) = Some img'.
Proof.
  intros Hr Hf. rewrite (resize_fit_eq w r img n Hr), Hf.
  split; [reflexivity|]. cbn. now apply list_lookup_middle.
Qed.

(** X8: [resize_fit] never enlarges.  For a positive bound and an image of
  positive size it returns an image of the same mode whose width and
  height are each at least 1 and at most the source's, and which is
  landscape, portrait or square as the source is. *)
Theorem resize_fit_never_enlarges (w : World Raster) (r : nat) (img : Image Raster) (n : Z) :
  heap w !! r = Some img -> 0 < n -> 0 < width img -> 0 < height img ->
  exists r' w' img',
    resize_fit r n w = (inr r', w') /\ heap w' !! r' = Some img' /\
    mode img' = mode img /\
    1 <= width img' <= width img /\ 1 <= height img' <= height img /\
    (width img <= height img -> width img' <= height img') /\
    (height img <= width img -> height img' <= width img').
Proof.
  intros Hr Hn Hw Hh.
  destruct (fitted_shape img n Hn Hw Hh)
    as (img' & E & Hm & Bw & Bh & _ & _ & Tall & Wide & _).
  destruct (resize_fit_result w r img img' n Hr E) as [Hrun Hobj].
  eexists _, _, img'. split; [exact Hrun|]. split; [exact Hobj|]. auto.
Qed.

(** X9: fitting is absorbing.  An image returned by [resize_fit] for the
  bound [n] is returned unchanged by [resize_fit] for [n] again or for any
  larger bound. *)
Theorem resize_fit_absorbs (w : World Raster) (r : nat) (img : Image Raster) (n m : Z) :
  heap w !! r = Some img -> 0 < n -> n <= m -> 0 < width img -> 0 < height img ->
  exists r1 w1 r2 w2 img',
    resize_fit r n w = (inr r1, w1) /\ heap w1 !! r1 = Some img' /\
    resize_fit r1 m w1 = (inr r2, w2) /\ heap w2 !! r2 = Some img'.
Proof.
  intros Hr Hn Hnm Hw Hh.
  destruct (fitted_shape img n Hn Hw Hh)
    as (img' & E & _ & _ & _ & Bw & Bh & _).
  destruct (resize_fit_result w r img img' n Hr E) as [Hrun Hobj].
  assert (fitted img' m = inr img') as E' by (apply fitted_fits; lia).
  destruct (resize_fit_result _ _ img' img' m Hobj E') as [Hrun' Hobj'].
  eexists _, _, _, _, img'.
  split; [exact Hrun|]. split; [exact Hobj|]. split; [exact Hrun'|]. exact Hobj'.
Qed.

(** X10: when the proportional length of the shorter edge is a whole
  number (the longer edge divides the bound times the shorter edge), the
  image [resize_fit] returns has exactly the aspect ratio of the source. *)
Theorem resize_fit_exact_ratio (w : World Raster) (r : nat) (img : Image Raster) (n : Z) :
  heap w !! r = Some img -> 0 < n -> 0 < width img -> 0 < height img ->
  (Z.max (width img) (height img) | n * Z.min (width img) (height img)) ->
  exists r' w' img',
    resize_fit r n w = (inr r', w') /\ heap w' !! r' = Some img' /\
    width img' * height img = height img' * width img.
Proof.
  intros Hr Hn Hw Hh Hdiv.
  destruct (fitted_shape img n Hn Hw Hh) as (img' & E & _ & _ & _ & _ & _ & _ & _ & Hexact).
  destruct (resize_fit_result w r img img' n Hr E) as [Hrun Hobj].
  eexists _, _, img'. split; [exact Hrun|]. split; [exact Hobj|]. auto.
Qed.

End ResizerShape.

Lemma resize_fit_never_enlarges_witness :
  exists r' w' img',
    resize_fit 0 1200 Simple.loaded = (inr r', w') /\ heap w' !! r' = Some img' /\
    mode img' = "RGB"%string /\
    1 <= width img' <= 3000 /\ 1 <= height img' <= 2000 /\
    (3000 <= 2000 -> width img' <= height img') /\
    (2000 <= 3000 -> height img' <= width img').
Proof.
  apply (resize_fit_never_enlarges Simple.loaded 0%nat Simple.photo 1200);
    [reflexivity | lia | simpl; lia | simpl; lia].
Defined.

Lemma resize_fit_absorbs_witness :
  exists r1 w1 r2 w2 img',
    resize_fit 0 1200 Simple.loaded = (inr r1, w1) /\ heap w1 !! r1 = Some img' /\
    resize_fit r1 2400 w1 = (inr r2, w2) /\ heap w2 !! r2 = Some img'.
Proof.
  apply (resize_fit_absorbs Simple.loaded 0%nat Simple.photo 1200 2400);
    [reflexivity | lia | lia | simpl; lia | simpl; lia].
Defined.

Lemma resize_fit_exact_ratio_witness :
  exists r' w' img',
    resize_fit 0 1200 Simple.loaded = (inr r', w') /\ heap w' !! r' = Some img' /\
    width img' * 2000 = height img' * 3000.
Proof.
  apply (resize_fit_exact_ratio Simple.loaded 0%nat Simple.photo 1200);
    [reflexivity | lia | simpl; lia | simpl; lia |].
  exists 800. reflexivity.
Defined.

(** ** The derivatives on disk *)

Section Derivatives.

Context {Raster : Type} {lib : Pillow Raster}.

Import PyStr.

Lemma saved_as_size (fmt : Format) (img : Image Raster) :
  width (saved_as fmt img) = width img /\ height (saved_as fmt img) = height img.
Proof.
  unfold saved_as, normalized. destruct fmt; auto.
  destruct (needs_rgb (mode img)); auto.
Qed.

(** X11: the two files of an [ok] outcome.  For positive bounds, distinct
  output directories and a source whose transposed image has positive
  size, the small file holds an image whose longest edge is at most
  [max_small], the large file one whose longest edge is at most
  [max_large], both in the same encoding, and neither is larger than the
  source image on any edge. *)
Theorem derivatives_fit_bounds (w w' : World Raster) (in_path small_dir large_dir : Path)
    (max_small max_large : Z) (src s l : string) :
  name in_path <> "" -> small_dir <> large_dir ->
  0 < max_small -> 0 < max_large ->
  (forall f i0 i1, files w !! in_path = Some f -> decode (content f) = inr i0 ->
                   transpose i0 = inr i1 -> 0 < width i1 /\ 0 < height i1) ->
  process_image in_path small_dir large_dir max_small max_large w = (inr (Ok src s l), w') ->
  exists f i0 i1 fmt kw img_s img_l ts tl,
    files w !! in_path = Some f /\ decode (content f) = inr i0 /\ transpose i0 = inr i1 /\
    files w' !! out_path small_dir in_path = Some (mkFile (Encoded fmt kw img_s) ts) /\
    files w' !! out_path large_dir in_path = Some (mkFile (Encoded fmt kw img_l) tl) /\
    Z.max (width img_s) (height img_s) <= max_small /\
    Z.max (width img_l) (height img_l) <= max_large /\
    width img_s <= width i1 /\ height img_s <= height i1 /\
    width img_l <= width i1 /\ height img_l <= height i1.
Proof.
  intros Hn Hdirs Hs Hl Hpos Hrun.
  destruct (process_image_ok w w' _ _ _ _ _ _ _ _ Hn Hrun)
    as (_ & _ & _ & f & i0 & i1 & img_s & img_l & Hf & Hd & Ht & Es & El & Hfiles & _).
  destruct (Hpos f i0 i1 Hf Hd Ht) as [Hw Hh].
  destruct (fitted_shape i1 max_small Hs Hw Hh) as (a & Ea & _ & Aw & Ah & Anw & Anh & _).
  destruct (fitted_shape i1 max_large Hl Hw Hh) as (b & Eb & _ & Bw & Bh & Bnw & Bnh & _).
  assert (a = img_s) as -> by congruence. assert (b = img_l) as -> by congruence.
  assert (out_path large_dir in_path <> out_path small_dir in_path) as Hne.
  { intros E. apply Hdirs. rewrite <- (parent_out_path small_dir in_path),
      <- (parent_out_path large_dir in_path). now rewrite E. }
  eexists f, i0, i1, _, _, _, _, _, _.
  split; [exact Hf|]. split; [exact Hd|]. split; [exact Ht|].
  split; [rewrite Hfiles, lookup_insert_ne by exact Hne; apply lookup_insert_eq|].
  split; [rewrite Hfiles; apply lookup_insert_eq|].
  destruct (saved_as_size (branch_format (out_ext in_path)) img_s) as [-> ->].
  destruct (saved_as_size (branch_format (out_ext in_path)) img_l) as [-> ->].
  repeat split; lia.
Qed.

Lemma needs_rgb_In (m : string) :
  needs_rgb m = true <-> In m ["P"; "LA"; "RGBA"; "CMYK"; "P;16"; "I;16"; "L"].
Proof.
  unfold needs_rgb. rewrite orb_true_iff, mem_In, String.eqb_eq. cbn. intuition.
Qed.

(** X12: [convert_mode] applied to its own result returns that same object
  and changes nothing; and for an image whose mode is none of P, LA, RGBA,
  CMYK, P;16, I;16, L it returns the very object it was given, without
  allocating a copy. *)
Theorem convert_mode_idempotent (w : World Raster) (r : nat) (img : Image Raster) :
  heap w !! r = Some img ->
  exists r1 w1,
    convert_mode r w = (inr r1, w1) /\
    convert_mode r1 w1 = (inr r1, w1) /\
    (~ In (mode img) ["P"; "LA"; "RGBA"; "CMYK"; "P;16"; "I;16"; "L"] -> r1 = r /\ w1 = w).
Proof.
  intros Hr. rewrite (convert_mode_eq w r img Hr).
  destruct (needs_rgb (mode img)) eqn:Em.
  - eexists _, _. split; [reflexivity|]. split.
    + erewrite convert_mode_eq by (cbn; now apply list_lookup_middle). reflexivity.
    + intros Hno. exfalso. apply Hno. now apply needs_rgb_In.
  - exists r, w. split; [reflexivity|]. split; [|auto].
    now rewrite (convert_mode_eq w r img Hr), Em.
Qed.



(** X14: names are kept so that small and large can be mapped to each
  other.  For a named source the small and the large derivative have the
  same file name, and a derivative taken as a source has its own name as
  derivative name: its output path in a directory is the output path of
  the original. *)
Theorem derivative_names_are_stable (d d' in_path : Path) :
  name in_path <> "" ->
  name (out_path d in_path) = name (out_path d' in_path) /\
  out_path d (out_path d' in_path) = out_path d in_path /\
  name (out_path d (out_path d' in_path)) = name (out_path d' in_path).
Proof.
  intros Hn.
  assert (out_ext (out_path d' in_path) = out_ext in_path) as Hext.
  { unfold out_ext at 1. rewrite suffix_out_path, out_ext_lower by exact Hn.
    pose proof (out_ext_supported in_path) as Hs. unfold is_fallback in Hs.
    apply negb_false_iff in Hs. now rewrite Hs. }
  assert (out_path d (out_path d' in_path) = out_path d in_path) as Hpath.
  { unfold out_path at 1. rewrite stem_out_path, Hext by exact Hn. reflexivity. }
  split; [now rewrite !name_out_path|]. split; [exact Hpath|].
  now rewrite Hpath, !name_out_path.
Qed.

End Derivatives.

Lemma derivatives_fit_bounds_witness :
  let in_path := ["images"; "a.jpg"] in
  let w := Simple.one_photo in
  let w' := snd (process_image in_path ["images"; "small"] ["images"; "large"] 1200 2400 w) in
  exists f i0 i1 fmt kw img_s img_l ts tl,
    files w !! in_path = Some f /\ decode (content f) = inr i0 /\ transpose i0 = inr i1 /\
    files w' !! out_path ["images"; "small"] in_path = Some (mkFile (Encoded fmt kw img_s) ts) /\
    files w' !! out_path ["images"; "large"] in_path = Some (mkFile (Encoded fmt kw img_l) tl) /\
    Z.max (width img_s) (height img_s) <= 1200 /\
    Z.max (width img_l) (height img_l) <= 2400 /\
    width img_s <= width i1 /\ height img_s <= height i1 /\
    width img_l <= width i1 /\ height img_l <= height i1.
Proof.
  apply (derivatives_fit_bounds Simple.one_photo _ ["images"; "a.jpg"]
           ["images"; "small"] ["images"; "large"] 1200 2400
           "a.jpg"%string "a.jpg"%string "a.jpg"%string).
  - cbv. discriminate.
  - discriminate.
  - lia.
  - lia.
  - intros f i0 i1 Hf Hd Ht. vm_compute in Hf. injection Hf as <-.
    cbn in Hd. injection Hd as <-. cbn in Ht. injection Ht as <-. cbn. lia.
  - vm_compute. reflexivity.
Defined.

Lemma convert_mode_idempotent_witness :
  exists r1 w1,
    convert_mode 1 Simple.loaded = (inr r1, w1) /\
    convert_mode r1 w1 = (inr r1, w1) /\
    (~ In "RGBA"%string ["P"; "LA"; "RGBA"; "CMYK"; "P;16"; "I;16"; "L"]%string ->
     r1 = 1%nat /\ w1 = Simple.loaded).
Proof.
  apply (convert_mode_idempotent Simple.loaded 1%nat Simple.icon). reflexivity.
Defined.

Lemma derivative_names_are_stable_witness :
  let in_path := ["images"; "b.tiff"] in
  name (out_path ["images"; "small"] in_path) = name (out_path ["images"; "large"] in_path) /\
  out_path ["images"; "small"] (out_path ["images"; "large"] in_path)
    = out_path ["images"; "small"] in_path /\
  name (out_path ["images"; "small"] (out_path ["images"; "large"] in_path))
    = name (out_path ["images"; "large"] in_path).
Proof.
  apply (derivative_names_are_stable ["images"; "small"] ["images"; "large"]
           ["images"; "b.tiff"]).
  cbv. discriminate.
Defined.

(** ** Failures while saving *)

Section SaveFailures.

Context {Raster : Type} {lib : Pillow Raster}.

Import PyStr.

Lemma with_heap_id (w : World Raster) : with_heap w (heap w) = w.
Proof. now destruct w. Qed.

(** [save_image] on a path with one of the four suffixes, as an equation:
  it raises what [save_failure] says, and otherwise writes the path. *)
Lemma save_image_run (w : World Raster) (r : nat) (img : Image Raster) (p : Path) :
  heap w !! r = Some img ->
  is_fallback (lower (suffix p)) = false ->
  let fmt := branch_format (lower (suffix p)) in
  let kw := branch_kwargs fmt in
  let img' := saved_as fmt img in
  exists h,
    (forall i x, heap w !! i = Some x -> h !! i = Some x) /\
    save_image r p w =
      match save_failure p img with
      | None => (inr p, written (with_heap w h) p (Encoded fmt kw img'))
      | Some e =>
          (inl e,
           match registered_extension (lower (splitext_ext (name p))), files w !! p with
           | Some _, Some _ => written (with_heap w h) p (Bytes (partial_output fmt kw img'))
           | _, _ => with_heap w h
           end)
      end.
Proof.
  intros Hr Hf. cbn zeta.
  assert (suffix p <> "") as Hsfx.
  { apply lower_nonempty. intros E. rewrite E in Hf. discriminate. }
  assert (forall fmt0, registered_extension (lower (splitext_ext (name p))) = Some fmt0 ->
                       fmt0 = branch_format (lower (suffix p))) as Hreg.
  { intros fmt0 E. apply branch_registered; [exact Hf|]. now apply registered_suffix. }
  unfold save_failure, save_image.
  set (ext := lower (suffix p)) in *.
  assert (forall (w0 : World Raster) r0 img0,
            heap w0 !! r0 = Some img0 -> files w0 = files w ->
            bind (Image_save r0 p (branch_kwargs (branch_format ext))) (fun _ => ret p) w0 =
              match
                match registered_extension (lower (splitext_ext (name p))) with
                | Some _ => encode_error (branch_format ext) (branch_kwargs (branch_format ext)) img0
                | None => Some (ValueError ("unknown file extension: " ++ splitext_ext (name p)))
                end
              with
              | None =>
                  (inr p, written w0 p (Encoded (branch_format ext) (branch_kwargs (branch_format ext)) img0))
              | Some e =>
                  (inl e,
                   match registered_extension (lower (splitext_ext (name p))), files w !! p with
                   | Some _, Some _ =>
                       written w0 p (Bytes (partial_output (branch_format ext)
                                              (branch_kwargs (branch_format ext)) img0))
                   | _, _ => w0
                   end)
              end) as Hsave.
  { intros w0 r0 img0 Hr0 Hfiles. unfold bind.
    rewrite (Image_save_eq w0 r0 img0 p _ Hr0), Hfiles.
    destruct (registered_extension _) as [fmt0|] eqn:E; [|reflexivity].
    rewrite (Hreg fmt0 eq_refl).
    destruct (encode_error _ _ img0); [|reflexivity].
    destruct (files w !! p); reflexivity. }
  unfold is_fallback in Hf. apply negb_false_iff in Hf.
  destruct (mem ext [".jpg"; ".jpeg"]) eqn:Ej.
  - assert (branch_format ext = JPEG) as Hfmt by (unfold branch_format; now rewrite Ej).
    destruct (convert_mode_result w r img Hr) as (r' & h & Ec & Hh & Hext).
    exists h. split; [exact Hext|].
    unfold bind at 1. rewrite Ec.
    specialize (Hsave (with_heap w h) r' (normalized img) Hh eq_refl).
    rewrite Hfmt in *. exact Hsave.
  - exists (heap w). split; [auto|]. rewrite with_heap_id.
    destruct (String.eqb_spec ext ".png") as [Ep|Ep].
    + assert (branch_format ext = PNG) as Hfmt by (rewrite Ep; reflexivity).
      specialize (Hsave w r img Hr eq_refl). rewrite Hfmt in *. exact Hsave.
    + destruct (String.eqb_spec ext ".webp") as [Ew|Ew].
      * assert (branch_format ext = WEBP) as Hfmt by (rewrite Ew; reflexivity).
        specialize (Hsave w r img Hr eq_refl). rewrite Hfmt in *. exact Hsave.
      * exfalso. apply mem_In in Hf.
        destruct Hf as [E|[E|[E|[E|[]]]]]; try congruence; rewrite <- E in Ej; discriminate.
Qed.

(** The part after the freshness test returns what [derive_outcome] says.
  A failure of the first save leaves every other path alone; a failure of
  the second leaves the first file written. *)
Lemma write_derivatives_run (w : World Raster) (in_path small_out large_out : Path)
    (im0 : nat) (max_small max_large : Z) (i1 : Image Raster) :
  heap w !! im0 = Some i1 ->
  is_fallback (lower (suffix small_out)) = false ->
  is_fallback (lower (suffix large_out)) = false ->
  exists w',
    write_derivatives in_path small_out large_out im0 max_small max_large w
      = (derive_outcome in_path small_out large_out i1 max_small max_large, w') /\
    forall a b, fitted i1 max_small = inr a -> fitted i1 max_large = inr b ->
      match save_failure small_out a with
      | Some _ => forall q, q <> small_out -> files w' !! q = files w !! q
      | None =>
          match save_failure large_out b with
          | Some _ =>
              small_out <> large_out ->
              let fmt := branch_format (lower (suffix small_out)) in
              files w' !! small_out
                = Some (mkFile (Encoded fmt (branch_kwargs fmt) (saved_as fmt a))
                          (clock (ticks w)))
          | None => True
          end
      end.
Proof.
  intros Hr Hfs Hfl. unfold write_derivatives, derive_outcome.
  unfold bind at 1. rewrite (resize_fit_eq w im0 i1 max_small Hr).
  destruct (fitted i1 max_small) as [e|a] eqn:Ea.
  { eexists. split; [reflexivity|]. discriminate. }
  set (w1 := with_heap w (heap w ++ [a])).
  assert (heap w1 !! im0 = Some i1) as Hr1
    by (cbn; rewrite lookup_app_l; eauto using lookup_lt_Some).
  unfold bind at 1. rewrite (resize_fit_eq w1 im0 i1 max_large Hr1).
  destruct (fitted i1 max_large) as [e|b] eqn:Eb.
  { eexists. split; [reflexivity|]. discriminate. }
  set (w2 := with_heap w1 (heap w1 ++ [b])).
  assert (heap w2 !! length (heap w) = Some a) as Ha.
  { cbn. rewrite lookup_app_l by (rewrite length_app; cbn; lia).
    now apply list_lookup_middle. }
  assert (heap w2 !! length (heap w1) = Some b) as Hb
    by (cbn; now apply list_lookup_middle).
  destruct (save_image_run w2 _ a small_out Ha Hfs) as (h & Hh & Hs1). cbn zeta in Hs1.
  unfold bind at 1. rewrite Hs1.
  destruct (save_failure small_out a) as [e|] eqn:Fa.
  { eexists. split; [reflexivity|]. intros a' b' [= <-] [= <-]. rewrite Fa. intros q Hq.
    destruct (registered_extension _); [|reflexivity].
    destruct (files w2 !! small_out); [|reflexivity].
    cbn. now rewrite lookup_insert_ne by auto. }
  cbv beta iota. unfold bind at 1.
  match goal with |- context [save_image _ large_out ?x] => set (w3 := x) end.
  assert (heap w3 !! length (heap w1) = Some b) as Hb3 by (cbn; auto).
  destruct (save_image_run w3 _ b large_out Hb3 Hfl) as (h' & Hh' & Hs2). cbn zeta in Hs2.
  rewrite Hs2.
  destruct (save_failure large_out b) as [e|] eqn:Fb.
  - eexists. split; [reflexivity|]. intros a' b' [= <-] [= <-]. rewrite Fa, Fb. intros Hne. cbn zeta.
    destruct (registered_extension (lower (splitext_ext (name large_out)))).
    + destruct (files w3 !! large_out); cbn.
      * rewrite lookup_insert_ne by auto. apply lookup_insert_eq.
      * apply lookup_insert_eq.
    + cbn. apply lookup_insert_eq.
  - eexists. split; [reflexivity|]. intros a' b' [= <-] [= <-]. now rewrite Fa, Fb.
Qed.

End SaveFailures.

(** ** When a save fails *)

Section Rollback.

Context {Raster : Type} {lib : Pillow Raster}.

Import PyStr.

(** X16: no rollback.  Let the two output directories differ.  When the
  source is stale, both sizes are computed and the small derivative is
  saved, but saving the large one raises, the outcome is the error of that
  exception and the small derivative stays on disk as just written. *)
Theorem failed_large_leaves_small (w : World Raster) (in_path small_dir large_dir : Path)
    (max_small max_large : Z) (f : File Raster) (i0 i1 a b : Image Raster) (e : PyExc) :
  name in_path <> "" -> small_dir <> large_dir ->
  files w !! in_path = Some f -> decode (content f) = inr i0 -> transpose i0 = inr i1 ->
  fresh_wrt f (files w) (out_path small_dir in_path) (out_path large_dir in_path) = false ->
  fitted i1 max_small = inr a -> fitted i1 max_large = inr b ->
  save_failure (out_path small_dir in_path) a = None ->
  save_failure (out_path large_dir in_path) b = Some e ->
  exists w',
    process_image in_path small_dir large_dir max_small max_large w
      = (inr (Error (name in_path) (exc_str e)), w') /\
    let fmt := branch_format (out_ext in_path) in
    files w' !! out_path small_dir in_path
      = Some (mkFile (Encoded fmt (branch_kwargs fmt) (saved_as fmt a)) (clock (ticks w))).
Proof.
  intros Hn Hdirs Hf Hd Ht Hstale Ea Eb Fa Fb.
  unfold process_image, try_except.
  rewrite (process_image_body_eq w _ _ _ _ _ f i0 i1 Hf Hd Ht). cbn zeta. rewrite Hstale.
  destruct (write_derivatives_run (with_heap w (heap w ++ [i0; i1])) in_path
              (out_path small_dir in_path) (out_path large_dir in_path)
              (S (length (heap w))) max_small max_large i1) as (w' & -> & Hfacts).
  - cbn. rewrite lookup_app_r by lia.
    replace (S (length (heap w)) - length (heap w))%nat with 1%nat by lia. reflexivity.
  - rewrite suffix_out_path, out_ext_lower by exact Hn. apply out_ext_supported.
  - rewrite suffix_out_path, out_ext_lower by exact Hn. apply out_ext_supported.
  - specialize (Hfacts a b Ea Eb). rewrite Fa, Fb in Hfacts.
    unfold derive_outcome. rewrite Ea, Eb, Fa, Fb. unfold ret.
    eexists. split; [reflexivity|]. cbn zeta.
    rewrite suffix_out_path, out_ext_lower in Hfacts by exact Hn.
    apply Hfacts. intros E. apply Hdirs.
    rewrite <- (parent_out_path small_dir in_path), <- (parent_out_path large_dir in_path).
    now rewrite E.
Qed.

(** X17: the first failure ends the file.  When saving the small
  derivative raises, the outcome is the error of that exception, the
  large derivative is not attempted, and every path other than the small
  output path is left as it was. *)
Theorem failed_small_skips_large (w : World Raster) (in_path small_dir large_dir : Path)
    (max_small max_large : Z) (f : File Raster) (i0 i1 a b : Image Raster) (e : PyExc) :
  name in_path <> "" ->
  files w !! in_path = Some f -> decode (content f) = inr i0 -> transpose i0 = inr i1 ->
  fresh_wrt f (files w) (out_path small_dir in_path) (out_path large_dir in_path) = false ->
  fitted i1 max_small = inr a -> fitted i1 max_large = inr b ->
  save_failure (out_path small_dir in_path) a = Some e ->
  exists w',
    process_image in_path small_dir large_dir max_small max_large w
      = (inr (Error (name in_path) (exc_str e)), w') /\
    forall q, q <> out_path small_dir in_path -> files w' !! q = files w !! q.
Proof.
  intros Hn Hf Hd Ht Hstale Ea Eb Fa.
  unfold process_image, try_except.
  rewrite (process_image_body_eq w _ _ _ _ _ f i0 i1 Hf Hd Ht). cbn zeta. rewrite Hstale.
  destruct (write_derivatives_run (with_heap w (heap w ++ [i0; i1])) in_path
              (out_path small_dir in_path) (out_path large_dir in_path)
              (S (length (heap w))) max_small max_large i1) as (w' & -> & Hfacts).
  - cbn. rewrite lookup_app_r by lia.
    replace (S (length (heap w)) - length (heap w))%nat with 1%nat by lia. reflexivity.
  - rewrite suffix_out_path, out_ext_lower by exact Hn. apply out_ext_supported.
  - rewrite suffix_out_path, out_ext_lower by exact Hn. apply out_ext_supported.
  - specialize (Hfacts a b Ea Eb). rewrite Fa in Hfacts.
    unfold derive_outcome. rewrite Ea, Eb, Fa. unfold ret.
    eexists. split; [reflexivity|]. exact Hfacts.
Qed.

End Rollback.

Lemma failed_large_leaves_small_witness :
  exists w',
    process_image (lib := Strip.limited) ["images"; "scroll.tif"]
      ["images"; "small"] ["images"; "large"] 1200 70000 Strip.archive
      = (inr (Error "scroll.tif" "Maximum supported image dimension is 65500 pixels"), w') /\
    files w' !! ["images"; "small"; "scroll.jpg"]
      = Some (mkFile (Encoded JPEG jpeg_kwargs (mkImage "RGB" 1200 17 tt)) 1000).
Proof.
  apply (failed_large_leaves_small (lib := Strip.limited) Strip.archive
           ["images"; "scroll.tif"] ["images"; "small"] ["images"; "large"] 1200 70000
           (mkFile (Encoded TIFF [] Strip.scroll) 5) Strip.scroll Strip.scroll
           (mkImage "RGB" 1200 17 tt) Strip.scroll
           (mkExc "ValueError" "Maximum supported image dimension is 65500 pixels")).
  - cbv. discriminate.
  - discriminate.
  - vm_compute. reflexivity.
  - reflexivity.
  - reflexivity.
  - vm_compute. reflexivity.
  - vm_compute. reflexivity.
  - vm_compute. reflexivity.
  - vm_compute. reflexivity.
  - vm_compute. reflexivity.
Defined.

Lemma failed_small_skips_large_witness :
  exists w',
    process_image (lib := Webp.limited) ["images"; "pano.webp"]
      ["images"; "small"] ["images"; "large"] 20000 20000 Webp.gallery
      = (inr (Error "pano.webp"
                "encoding error 5: Image size exceeds WebP limit of 16383 pixels"), w') /\
    forall q, q <> out_path ["images"; "small"] ["images"; "pano.webp"] ->
              files w' !! q = files Webp.gallery !! q.
Proof.
  apply (failed_small_skips_large (lib := Webp.limited) Webp.gallery
           ["images"; "pano.webp"] ["images"; "small"] ["images"; "large"] 20000 20000
           (mkFile (Encoded WEBP [] Webp.panorama) 5) Webp.panorama Webp.panorama
           Webp.panorama Webp.panorama
           (mkExc "ValueError" "encoding error 5: Image size exceeds WebP limit of 16383 pixels")).
  - cbv. discriminate.
  - vm_compute. reflexivity.
  - reflexivity.
  - reflexivity.
  - vm_compute. reflexivity.
  - vm_compute. reflexivity.
  - vm_compute. reflexivity.
  - vm_compute. reflexivity.
Defined.
